(** * service-runner: a shallow embedding of config.go and serviceRunner.go

    The development follows the two source files.  [Config] embeds
    config.go (the configuration record, its constructors and the derived
    listen address).  [Group] is the actor group the runner is built on.
    [Runner] embeds serviceRunner.go: the constructors, the registration
    methods, the three kinds of actors that [Run] and [Async] put into the
    group, and the tail of both methods that turns the group outcome into
    a log record and an exit status.

    Go values are rendered as follows.  An [error] interface value is an
    [option error] ([None] is Go's nil); an [int] is a [Z]; a slice is a
    [list]; a pointer to a runner is a location in a [gmap] heap; a
    goroutine is a program counter that a schedule advances one step at a
    time, so a statement that quantifies over every schedule covers every
    interleaving of the goroutines. *)

From Stdlib Require Import ZArith Ascii String DecimalString DecimalPos DecimalZ.
From stdpp Require Import base option list gmap strings.

Set Default Proof Using "Type".

(** ** Errors *)

(** Go errors as far as the runner looks at them: the sentinel
    [http.ErrServerClosed], an opaque error carrying a message, and an
    error that wraps another one (what [fmt.Errorf] with [%w] builds). *)
Inductive error : Type :=
| ErrServerClosed
| ErrorString (msg : string)
| Wrapped (msg : string) (inner : error).

(** The result of a Go function returning [error]; [None] is nil. *)
Abbreviation outcome := (option error).

Definition is_ErrServerClosed (e : error) : bool :=
  match e with ErrServerClosed => true | _ => false end.

(** [errors.Is(err, http.ErrServerClosed)] for a non-nil [err]: compare,
    then follow the [Unwrap] chain. *)
Fixpoint errors_Is_ErrServerClosed (err : error) : bool :=
  is_ErrServerClosed err ||
  match err with
  | Wrapped _ inner => errors_Is_ErrServerClosed inner
  | _ => false
  end.

(** ** config.go *)
Module Config.

(** [DefaultConfig]; the Go [int] port is kept as an integer. *)
Record DefaultConfig : Type := mkDefaultConfig {
  ServerName : string;
  HostName : string;
  ServerPort : Z
}.

(** The [default:"..."] struct tags of the three fields. *)
Definition default_ServerName : string := "server".
Definition default_HostName : string := "".
Definition default_ServerPort : string := "8000".

(** The [envconfig:"..."] struct tags of the three fields. *)
Definition envconfig_ServerName : string := "name".
Definition envconfig_HostName : string := "host".
Definition envconfig_ServerPort : string := "port".

Definition NewConfigWithHost (name host : string) (port : Z) : DefaultConfig :=
  {| ServerName := name; HostName := host; ServerPort := port |}.

Definition NewConfig (name : string) (port : Z) : DefaultConfig :=
  NewConfigWithHost name "" port.

Definition Name (c : DefaultConfig) : string := ServerName c.
Definition Host (c : DefaultConfig) : string := HostName c.
Definition Port (c : DefaultConfig) : Z := ServerPort c.

(** The [%d] verb on an [int]: decimal digits, a leading [-] when
    negative, no padding. *)
Definition fmt_d (z : Z) : string := NilZero.string_of_int (Z.to_int z).

(** [fmt.Sprintf("%s:%d", c.HostName, c.ServerPort)]. *)
Definition addr (c : DefaultConfig) : string :=
  HostName c +:+ ":" +:+ fmt_d (ServerPort c).

(** *** NewEnvConfig

    [envconfig.MustProcess("SERVER", &def)] fills each field from the
    process environment.  The environment is a lookup function (what
    [os.LookupEnv] answers).  For a field tagged [envconfig:"x"] the
    library looks up [SERVER_X], then the bare [X]; when neither is set
    it takes the [default] tag if that is not empty and otherwise leaves
    the field at its zero value.  The integer parser of the port field
    is a parameter; a value it rejects makes [MustProcess] panic, which
    is [None] here. *)
Section Env.
Variable parseInt : string -> option Z.

Definition upper (a : ascii) : ascii :=
  let n := nat_of_ascii a in
  if (97 <=? n)%nat && (n <=? 122)%nat then ascii_of_nat (n - 32) else a.

Fixpoint ToUpper (s : string) : string :=
  match s with
  | EmptyString => EmptyString
  | String a s' => String (upper a) (ToUpper s')
  end.

Definition env_key (prefix tag : string) : string :=
  ToUpper (prefix +:+ "_" +:+ tag).

Definition lookup_field (env : string -> option string)
    (prefix tag def : string) : option string :=
  match env (env_key prefix tag) with
  | Some v => Some v
  | None =>
      match env (ToUpper tag) with
      | Some v => Some v
      | None => if decide (def = "") then None else Some def
      end
  end.

Definition NewEnvConfig (env : string -> option string) : option DefaultConfig :=
  let name := default "" (lookup_field env "SERVER" envconfig_ServerName default_ServerName) in
  let host := default "" (lookup_field env "SERVER" envconfig_HostName default_HostName) in
  match lookup_field env "SERVER" envconfig_ServerPort default_ServerPort with
  | None => Some {| ServerName := name; HostName := host; ServerPort := 0 |}
  | Some v =>
      match parseInt v with
      | Some p => Some {| ServerName := name; HostName := host; ServerPort := p |}
      | None => None
      end
  end.
End Env.

(** Reading a decimal literal back: an optional [-], then digits.  It
    serves to check the rendering of the port and to instantiate the
    parser parameter. *)
Definition read_decimal (s : string) : option Z :=
  Z.of_int <$> NilZero.int_of_string s.

(** Whether a string is free of colons: a port rendered by [fmt_d] is,
    which is what makes an address split in one way only. *)
Fixpoint colon_free (s : string) : bool :=
  match s with
  | EmptyString => true
  | String a s' => negb (Ascii.eqb a ":") && colon_free s'
  end.

End Config.

(** ** The actor group *)

(** Modelled from the spec: the actor group ([run.Group] of the imported
    package github.com/oklog/run), whose source is not part of
    serviceRunner.go.  [Add] and [Run] follow section 4.1 of the
    specification: every actor's [execute] is launched concurrently; the
    first one to return is the trigger and its outcome [O] is the group
    outcome; [interrupt O] is invoked once on every actor other than the
    trigger; [Run] then waits until every [execute] has returned and
    returns [O].  The specification is silent on a group without actors;
    [Run] returns nil at once there.

    An actor's blocking [execute] is a program counter of type [PC] and a
    step function: [a_step pc inp w] is [None] when the goroutine cannot
    move in world [w] (it is blocked), and otherwise the new world with
    either the next program counter or the value [execute] returns.  The
    extra argument [inp] is what the outside world decides at that step
    (whether a call into user code returns now, whether the network
    fails).  [a_interrupt] is the actor's second closure. *)
Module Group.
Section Group.
Context {W PC I E : Type}.

Record actor : Type := Actor {
  a_start : PC;
  a_step : PC -> I -> W -> option (W * (PC + outcome));
  a_interrupt : outcome -> W -> W
}.

(** [g.actors]. *)
Record Group : Type := mkGroup { actors : list actor }.

Definition empty : Group := {| actors := [] |}.

(** [g.Add(execute, interrupt)]. *)
Definition Add (g : Group) (a : actor) : Group :=
  {| actors := actors g ++ [a] |}.

(** The goroutine that called [Run]: waiting for the first return,
    delivering interrupts (the next index to visit), waiting for the
    rest, returned. *)
Inductive main_pc : Type :=
| MWait
| MInterrupt (trigger : nat) (o : outcome) (next : nat)
| MJoin (trigger : nat) (o : outcome)
| MDone (o : outcome).

(** A running group.  [g_returns] lists, in the order they happened, the
    returns of [execute] as (actor index, value); its head is the
    trigger.  [g_interrupts] records every [interrupt] call made, as
    (actor index, argument), in call order. *)
Record gstate : Type := mkGstate {
  g_world : W;
  g_status : list (PC + outcome);
  g_returns : list (nat * outcome);
  g_main : main_pc;
  g_interrupts : list (nat * outcome)
}.

(** What a schedule is made of: one step of actor [i]'s [execute] with
    the outside world's decision, one step of the goroutine running
    [Run], or an event of the outside world. *)
Inductive item : Type :=
| SActor (i : nat) (inp : I)
| SMain
| SEnv (e : E).

Variable env_step : E -> W -> W.
Variable g : Group.

Definition start (w : W) : gstate :=
  {| g_world := w;
     g_status := (fun a => inl (a_start a)) <$> actors g;
     g_returns := [];
     g_main := MWait;
     g_interrupts := [] |}.

Definition actor_step (i : nat) (inp : I) (st : gstate) : gstate :=
  match actors g !! i, g_status st !! i with
  | Some a, Some (inl pc) =>
      match a_step a pc inp (g_world st) with
      | Some (w', inl pc') =>
          {| g_world := w';
             g_status := <[i := inl pc']> (g_status st);
             g_returns := g_returns st;
             g_main := g_main st;
             g_interrupts := g_interrupts st |}
      | Some (w', inr o) =>
          {| g_world := w';
             g_status := <[i := inr o]> (g_status st);
             g_returns := g_returns st ++ [(i, o)];
             g_main := g_main st;
             g_interrupts := g_interrupts st |}
      | None => st
      end
  | _, _ => st
  end.

Definition set_main (m : main_pc) (st : gstate) : gstate :=
  {| g_world := g_world st;
     g_status := g_status st;
     g_returns := g_returns st;
     g_main := m;
     g_interrupts := g_interrupts st |}.

Definition main_step (st : gstate) : gstate :=
  match g_main st with
  | MWait =>
      match actors g with
      | [] => set_main (MDone None) st
      | _ :: _ =>
          match g_returns st with
          | [] => st
          | (t, o) :: _ => set_main (MInterrupt t o 0) st
          end
      end
  | MInterrupt t o j =>
      match actors g !! j with
      | None => set_main (MJoin t o) st
      | Some a =>
          if decide (j = t) then set_main (MInterrupt t o (S j)) st
          else
            {| g_world := a_interrupt a o (g_world st);
               g_status := g_status st;
               g_returns := g_returns st;
               g_main := MInterrupt t o (S j);
               g_interrupts := g_interrupts st ++ [(j, o)] |}
      end
  | MJoin t o =>
      if decide (length (g_returns st) = length (actors g))
      then set_main (MDone o) st else st
  | MDone _ => st
  end.

Definition env_event (e : E) (st : gstate) : gstate :=
  {| g_world := env_step e (g_world st);
     g_status := g_status st;
     g_returns := g_returns st;
     g_main := g_main st;
     g_interrupts := g_interrupts st |}.

Definition sched_step (st : gstate) (it : item) : gstate :=
  match it with
  | SActor i inp => actor_step i inp st
  | SMain => main_step st
  | SEnv e => env_event e st
  end.

(** The group after a schedule, from world [w]. *)
Definition run_sched (sched : list item) (w : W) : gstate :=
  foldl sched_step (start w) sched.

(** [Some o] once [Run] has returned [o]. *)
Definition returned (st : gstate) : option outcome :=
  match g_main st with MDone o => Some o | _ => None end.

(** The trigger: the first [execute] to return, with its value. *)
Definition trigger (st : gstate) : option (nat * outcome) := head (g_returns st).

(** How many times [interrupt] was called on actor [k]. *)
Definition interrupt_count (k : nat) (st : gstate) : nat :=
  length (filter (fun c => c.1 = k) (g_interrupts st)).

(** [n] more steps of the goroutine running [Run]. *)
Definition main_steps (n : nat) (st : gstate) : gstate :=
  foldl sched_step st (replicate n SMain).

(** *** The invariant of a running group *)

(** The interrupt calls made once the actors before index [j] have been
    visited, with trigger [t] and outcome [o]. *)
Definition interrupts_upto (t : nat) (o : outcome) (j : nat) : list (nat * outcome) :=
  (fun k => (k, o)) <$> filter (fun k => k ≠ t) (seq 0 j).

(** How many [execute] calls have returned. *)
Fixpoint n_returned (l : list (PC + outcome)) : nat :=
  match l with
  | [] => 0
  | inl _ :: l' => n_returned l'
  | inr _ :: l' => S (n_returned l')
  end.

Definition main_inv (st : gstate) : Prop :=
  match g_main st with
  | MWait => g_interrupts st = []
  | MInterrupt t o j =>
      head (g_returns st) = Some (t, o) ∧ j ≤ length (actors g) ∧
      g_interrupts st = interrupts_upto t o j
  | MJoin t o =>
      head (g_returns st) = Some (t, o) ∧
      g_interrupts st = interrupts_upto t o (length (actors g))
  | MDone o =>
      (actors g = [] ∧ o = None ∧ g_interrupts st = []) ∨
      (∃ t, head (g_returns st) = Some (t, o) ∧
            g_interrupts st = interrupts_upto t o (length (actors g)) ∧
            length (g_returns st) = length (actors g))
  end.

Record inv (st : gstate) : Prop := mkInv {
  inv_len : length (g_status st) = length (actors g);
  inv_ret : ∀ i o, (i, o) ∈ g_returns st → g_status st !! i = Some (inr o);
  inv_cnt : length (g_returns st) = n_returned (g_status st);
  inv_main : main_inv st
}.

(** How many steps the goroutine running [Run] still has to take. *)
Definition main_fuel (m : main_pc) : nat :=
  match m with
  | MWait => length (actors g) + 3
  | MInterrupt _ _ j => length (actors g) - j + 2
  | MJoin _ _ => 1
  | MDone _ => 0
  end.

End Group.
End Group.

(** ** serviceRunner.go *)
Module Runner.
Import Config.

(** A [context.Context], a [*slog.Logger], an [http.Handler] and a
    [RunFn] are known by identity only: what they do is up to the
    caller. *)
Definition context : Type := nat.
Definition Logger : Type := nat.
Definition Handler : Type := nat.
Record RunFn : Type := mkRunFn { fn_id : nat }.

(** A [func() error]: its identity and the error it returns. *)
Record closeFn : Type := mkCloseFn { close_id : nat; close_err : outcome }.

(** [http.Server{Addr: ..., Handler: ...}]. *)
Record Server : Type := mkServer { Addr : string; Handler_of : Handler }.

(** The [io.Closer] values the runner meets: what [Closer] returns (a
    struct around a [func() error]), the HTTP server, and
    [io.NopCloser(nil)]. *)
Inductive io_Closer : Type :=
| closer (f : closeFn)
| HttpServer (srv : Server)
| NopCloser.

(** [Closer(fn)]. *)
Definition Closer (fn : closeFn) : io_Closer := closer fn.

Inductive level : Type := Debug | Error.
Inductive logval : Type := LStr (s : string) | LErr (e : error).

(** What a run leaves behind, in the order it happened. *)
Inductive event : Type :=
| EvListen (address : string)
| EvClose (c : io_Closer)
| EvCall (fn : RunFn) (ctx : context)
| EvLog (lg : Logger) (lvl : level) (msg : string) (kv : list logval)
| EvExit (code : Z).

(** The world the goroutines share: the contexts whose [Done] channel is
    closed, whether the HTTP server has been closed, and the trace. *)
Record world : Type := mkWorld {
  w_done : list context;
  w_closed : bool;
  w_trace : list event
}.

Definition world0 : world := {| w_done := []; w_closed := false; w_trace := [] |}.

Definition emit (e : event) (w : world) : world :=
  {| w_done := w_done w; w_closed := w_closed w; w_trace := w_trace w ++ [e] |}.

Definition shut (w : world) : world :=
  {| w_done := w_done w; w_closed := true; w_trace := w_trace w |}.

(** [c.Close()]: the call is recorded; closing the server also makes
    its serve loop end; [closer.Close] returns what its function
    returns; the no-op closer returns nil. *)
Definition Close (c : io_Closer) (w : world) : outcome * world :=
  match c with
  | closer f => (close_err f, emit (EvClose c) w)
  | HttpServer _ => (None, shut (emit (EvClose c) w))
  | NopCloser => (None, emit (EvClose c) w)
  end.

(** What the outside world decides at a step of an actor, and the one
    event of the outside world: a context is cancelled. *)
Inductive input : Type := Quiet | Returns | Fails (e : error).
Inductive env : Type := Cancel (ctx : context).

Definition env_step (e : env) (w : world) : world :=
  match e with
  | Cancel ctx =>
      {| w_done := ctx :: w_done w; w_closed := w_closed w; w_trace := w_trace w |}
  end.

(** Program counters of the three [execute] closures. *)
Inductive pc : Type :=
| HStart
| HServing
| WWait
| WClose
| WCleanup (rest : list io_Closer)
| BStart
| BRunning.

Abbreviation actor := (@Group.actor world pc input).
Abbreviation Group := (@Group.Group world pc input).

Record runner : Type := mkRunner {
  group : Group;
  serverConfig : DefaultConfig;
  logger : Logger;
  runners : list RunFn;
  cleanup : list io_Closer;
  forTesting : bool
}.

(** [New]. *)
Definition New (serverConfig : DefaultConfig) (logger : Logger)
    (testing : list bool) : runner :=
  let forTesting :=
    if bool_decide (length testing = 1) && default false (testing !! 0)
    then true else false in
  {| group := Group.empty;
     serverConfig := serverConfig;
     logger := logger;
     runners := [];
     cleanup := [];
     forTesting := forTesting |}.

(** [NewEnv]; [None] when [MustProcess] panics. *)
Definition NewEnv (parseInt : string -> option Z) (environ : string -> option string)
    (logger : Logger) (testing : list bool) : option runner :=
  cfg ← NewEnvConfig parseInt environ;
  Some (New cfg logger testing).

(** [r.AddRunner(runners...)], as the new state of [r]. *)
Definition AddRunner (r : runner) (fns : list RunFn) : runner :=
  {| group := group r;
     serverConfig := serverConfig r;
     logger := logger r;
     runners := runners r ++ fns;
     cleanup := cleanup r;
     forTesting := forTesting r |}.

(** [r.OnClose(cleanup...)], as the new state of [r]. *)
Definition OnClose (r : runner) (cs : list io_Closer) : runner :=
  {| group := group r;
     serverConfig := serverConfig r;
     logger := logger r;
     runners := runners r;
     cleanup := cleanup r ++ cs;
     forTesting := forTesting r |}.

(** [r.Add(execute, interrupt)] through the embedded group. *)
Definition runner_Add (r : runner) (a : actor) : runner :=
  {| group := Group.Add (group r) a;
     serverConfig := serverConfig r;
     logger := logger r;
     runners := runners r;
     cleanup := cleanup r;
     forTesting := forTesting r |}.

(** *** The listener actor (startHttpServer) *)

(** The body of the listener's [execute] after [srv.ListenAndServe()]
    has returned [err]. *)
Definition http_execute (err : outcome) : outcome :=
  match err with
  | Some e => if negb (errors_Is_ErrServerClosed e) then Some e else None
  | None => None
  end.

(** [srv.ListenAndServe()] inside the listener's [execute].  A closed
    server returns [http.ErrServerClosed], before binding as well as
    while serving; otherwise binding or serving fails when the outside
    world says so, and the call blocks in between. *)
Definition http_step (srv : Server) (p : pc) (inp : input) (w : world)
    : option (world * (pc + outcome)) :=
  match p with
  | HStart =>
      if w_closed w then Some (w, inr (http_execute (Some ErrServerClosed)))
      else match inp with
           | Fails e => Some (w, inr (http_execute (Some e)))
           | _ => Some (emit (EvListen (Addr srv)) w, inl HServing)
           end
  | HServing =>
      if w_closed w then Some (w, inr (http_execute (Some ErrServerClosed)))
      else match inp with
           | Fails e => Some (w, inr (http_execute (Some e)))
           | _ => None
           end
  | _ => None
  end.

Definition http_interrupt (lg : Logger) (name : string) (err : outcome) (w : world) : world :=
  match err with
  | Some e => emit (EvLog lg Error "http server failure" [LStr "service"; LStr name; LStr "err"; LErr e]) w
  | None => w
  end.

Definition http_actor (r : runner) (srv : Server) : actor :=
  {| Group.a_start := HStart;
     Group.a_step := http_step srv;
     Group.a_interrupt := http_interrupt (logger r) (Name (serverConfig r)) |}.

Definition startHttpServer (r : runner) (mu : Handler) : runner * io_Closer :=
  if forTesting r then (r, NopCloser)
  else
    let a := serverConfig r in
    let srv := {| Addr := addr a; Handler_of := mu |} in
    (runner_Add r (http_actor r srv), HttpServer srv).

(** *** The cancellation watcher (first actor added by Run) *)

Definition watcher_step (ctx : context) (srv : io_Closer) (cs : list io_Closer)
    (p : pc) (inp : input) (w : world) : option (world * (pc + outcome)) :=
  match p with
  | WWait => if bool_decide (ctx ∈ w_done w) then Some (w, inl WClose) else None
  | WClose => Some ((Close srv w).2, inl (WCleanup cs))
  | WCleanup (c :: rest) => Some ((Close c w).2, inl (WCleanup rest))
  | WCleanup [] => Some (w, inr None)
  | _ => None
  end.

Definition watcher_actor (r : runner) (ctx : context) (srv : io_Closer) : actor :=
  {| Group.a_start := WWait;
     Group.a_step := watcher_step ctx srv (cleanup r);
     Group.a_interrupt := fun _ w => w |}.

(** *** The actor around a background function *)

Definition runFn_step (fn : RunFn) (ctx : context)
    (p : pc) (inp : input) (w : world) : option (world * (pc + outcome)) :=
  match p with
  | BStart => Some (emit (EvCall fn ctx) w, inl BRunning)
  | BRunning => match inp with Returns => Some (w, inr None) | _ => None end
  | _ => None
  end.

Definition runFn_actor (fn : RunFn) (ctx : context) : actor :=
  {| Group.a_start := BStart;
     Group.a_step := runFn_step fn ctx;
     Group.a_interrupt := fun _ w => w |}.

(** The [for _, runFn := range r.runners { r.Add(...) }] loop of both
    [Run] and [Async].  Each closure holds its own [runFn]: loop variables
    are per iteration, as they are since Go 1.22. *)
Definition add_runners (r : runner) (ctx : context) : runner :=
  foldl (fun r' fn => runner_Add r' (runFn_actor fn ctx)) r (runners r).

(** *** Run and Async *)

Definition keyValues (r : runner) : list logval :=
  if forTesting r then [LStr "TESTING-MODE"; LStr "ON"] else [].

(** How a call ends: still inside [Group.Run] when the schedule is
    used up, returned to the caller, or the process has exited. *)
Inductive result : Type :=
| Blocked (st : @Group.gstate world pc)
| Returned (w : world)
| Exited (code : Z) (w : world).

(** The statements after [r.Group.Run()]. *)
Definition finish (r : runner) (mode : string) (st : @Group.gstate world pc) : result :=
  match Group.returned st with
  | None => Blocked st
  | Some (Some err) =>
      let w := emit (EvLog (logger r) Error "group runner failure"
                       [LStr "mode"; LStr mode; LStr "err"; LErr err]) (Group.g_world st) in
      Exited 1 (emit (EvExit 1) w)
  | Some None => Returned (Group.g_world st)
  end.

(** The runner once [Async] has added its actors. *)
Definition Async_assemble (r : runner) (ctx : context) : runner :=
  add_runners r ctx.

(** The runner once [Run] has added its actors. *)
Definition Run_assemble (r : runner) (ctx : context) (mu : Handler) : runner :=
  let '(r1, srv) := startHttpServer r mu in
  let r2 := runner_Add r1 (watcher_actor r1 ctx srv) in
  add_runners r2 ctx.

(** The group of [Async] under a schedule. *)
Definition Async_group (r : runner) (ctx : context) (sched : list Group.item) (w : world)
    : @Group.gstate world pc :=
  let r1 := Async_assemble r ctx in
  let w1 := emit (EvLog (logger r1) Debug "async runner started" (keyValues r1)) w in
  Group.run_sched env_step (group r1) sched w1.

(** The group of [Run] under a schedule. *)
Definition Run_group (r : runner) (ctx : context) (mu : Handler)
    (sched : list Group.item) (w : world) : @Group.gstate world pc :=
  let r1 := Run_assemble r ctx mu in
  let w1 := emit (EvLog (logger r1) Debug "group runner start" (keyValues r1)) w in
  Group.run_sched env_step (group r1) sched w1.

(** [r.Async(ctx)] under a schedule of its goroutines. *)
Definition Async (r : runner) (ctx : context) (sched : list Group.item) (w : world) : result :=
  finish r "async" (Async_group r ctx sched w).

(** [r.Run(ctx, mu)] under a schedule of its goroutines. *)
Definition Run (r : runner) (ctx : context) (mu : Handler)
    (sched : list Group.item) (w : world) : result :=
  finish r "sync" (Run_group r ctx mu sched w).

(** *** What a trace says *)

(** The [Close] calls, the calls of background functions, the
    addresses bound and the exit statuses of a trace, each in order. *)
Definition close_events (tr : list event) : list io_Closer :=
  omap (fun e => match e with EvClose c => Some c | _ => None end) tr.

Definition call_events (tr : list event) : list (RunFn * context) :=
  omap (fun e => match e with EvCall fn ctx => Some (fn, ctx) | _ => None end) tr.

Definition listen_events (tr : list event) : list string :=
  omap (fun e => match e with EvListen a => Some a | _ => None end) tr.

Definition exit_events (tr : list event) : list Z :=
  omap (fun e => match e with EvExit c => Some c | _ => None end) tr.

Definition error_logs (tr : list event) : list (string * list logval) :=
  omap (fun e => match e with EvLog _ Error msg kv => Some (msg, kv) | _ => None end) tr.

(** *** The actors of a run, by position *)

(** The closer [startHttpServer] hands to the watcher. *)
Definition Run_srv (r : runner) (mu : Handler) : io_Closer := (startHttpServer r mu).2.

(** Where the watcher sits in the group of [Run]. *)
Definition watcher_index (r : runner) : nat := if forTesting r then 0 else 1.

(** [n] steps of the watcher's goroutine. *)
Definition watcher_steps (r : runner) (ctx : context) (mu : Handler) (n : nat)
    (st : @Group.gstate world pc) : @Group.gstate world pc :=
  foldl (Group.sched_step env_step (group (Run_assemble r ctx mu))) st
    (replicate n (Group.SActor (watcher_index r) Quiet)).

(** *** Invariants of a run *)

(** The listener: nothing bound before it serves, one address bound
    while it serves, and it only fails with an error that is not the
    server-closed condition. *)
Definition http_inv (a : string) (s : option (pc + outcome)) (w : world) : Prop :=
  match s with
  | Some (inl HStart) => listen_events (w_trace w) = []
  | Some (inl HServing) => listen_events (w_trace w) = [a]
  | Some (inr o) =>
      (listen_events (w_trace w) = [] ∨ listen_events (w_trace w) = [a]) ∧
      ∀ e, o = Some e → errors_Is_ErrServerClosed e = false
  | _ => False
  end.

(** The watcher: where it stands against the [Close] calls made. *)
Definition watcher_inv (ctx : context) (srv : io_Closer) (cs : list io_Closer)
    (s : option (pc + outcome)) (w : world) : Prop :=
  match s with
  | Some (inl WWait) => close_events (w_trace w) = []
  | Some (inl WClose) => ctx ∈ w_done w ∧ close_events (w_trace w) = []
  | Some (inl (WCleanup rest)) =>
      ctx ∈ w_done w ∧
      ∃ pre, cs = pre ++ rest ∧ close_events (w_trace w) = srv :: pre
  | Some (inr o) =>
      o = None ∧ ctx ∈ w_done w ∧ close_events (w_trace w) = srv :: cs
  | _ => False
  end.

(** The actor around a background function. *)
Definition runFn_inv (fn : RunFn) (ctx : context)
    (s : option (pc + outcome)) (w : world) : Prop :=
  match s with
  | Some (inl BStart) => True
  | Some (inl BRunning) => (fn, ctx) ∈ call_events (w_trace w)
  | Some (inr o) => o = None ∧ (fn, ctx) ∈ call_events (w_trace w)
  | _ => False
  end.

Record Run_inv (r : runner) (ctx : context) (mu : Handler)
    (st : @Group.gstate world pc) : Prop := mkRunInv {
  ri_http : forTesting r = false →
            http_inv (addr (serverConfig r)) (Group.g_status st !! 0) (Group.g_world st);
  ri_listen : forTesting r = true → listen_events (w_trace (Group.g_world st)) = [];
  ri_watcher : watcher_inv ctx (Run_srv r mu) (cleanup r)
                 (Group.g_status st !! watcher_index r) (Group.g_world st);
  ri_runFn : ∀ k fn, runners r !! k = Some fn →
             runFn_inv fn ctx (Group.g_status st !! (S (watcher_index r) + k)) (Group.g_world st);
  ri_calls : ∀ fn c, (fn, c) ∈ call_events (w_trace (Group.g_world st)) →
             c = ctx ∧ fn ∈ runners r;
  ri_exit : exit_events (w_trace (Group.g_world st)) = [];
  ri_errlog : ∀ m kv, (m, kv) ∈ error_logs (w_trace (Group.g_world st)) →
              m = "http server failure"
}.

Record Async_inv (r : runner) (ctx : context)
    (st : @Group.gstate world pc) : Prop := mkAsyncInv {
  ai_runFn : ∀ k fn, runners r !! k = Some fn →
             runFn_inv fn ctx (Group.g_status st !! k) (Group.g_world st);
  ai_calls : ∀ fn c, (fn, c) ∈ call_events (w_trace (Group.g_world st)) →
             c = ctx ∧ fn ∈ runners r;
  ai_close : close_events (w_trace (Group.g_world st)) = [];
  ai_listen : listen_events (w_trace (Group.g_world st)) = [];
  ai_exit : exit_events (w_trace (Group.g_world st)) = [];
  ai_errlog : error_logs (w_trace (Group.g_world st)) = []
}.

(** How many steps the watcher still has to take once its context is
    cancelled. *)
Definition watcher_fuel (cs : list io_Closer) (s : option (pc + outcome)) : nat :=
  match s with
  | Some (inl WWait) => length cs + 3
  | Some (inl WClose) => length cs + 2
  | Some (inl (WCleanup rest)) => length rest + 1
  | _ => 0
  end.

(** *** The rest of the interface *)

(** [c.Server(mu)] of config.go; it lives here because it returns the
    server type. *)
Definition DefaultConfig_Server (c : DefaultConfig) (mu : Handler) : Server :=
  {| Addr := addr c; Handler_of := mu |}.

(** A runner as a caller can build it: [New], then any number of
    [AddRunner] and [OnClose] calls in any order. *)
Inductive call : Type :=
| CallAddRunner (fns : list RunFn)
| CallOnClose (cs : list io_Closer).

Definition apply_call (r : runner) (c : call) : runner :=
  match c with
  | CallAddRunner fns => AddRunner r fns
  | CallOnClose cs => OnClose r cs
  end.

Definition build (cfg : DefaultConfig) (lg : Logger) (testing : list bool)
    (calls : list call) : runner :=
  foldl apply_call (New cfg lg testing) calls.

Definition added_runners (calls : list call) : list RunFn :=
  concat (omap (fun c => match c with CallAddRunner fns => Some fns | _ => None end) calls).

Definition added_cleanups (calls : list call) : list io_Closer :=
  concat (omap (fun c => match c with CallOnClose cs => Some cs | _ => None end) calls).

(** *** More invariants of a run *)

(** Whether the actor around a background function has called it. *)
Definition started (s : pc + outcome) : bool :=
  match s with inl BStart => false | _ => true end.

(** The calls the background actors have made, read off their
    statuses, in registration order. *)
Fixpoint called (ctx : context) (fns : list RunFn) (ss : list (pc + outcome))
    : list (RunFn * context) :=
  match fns, ss with
  | fn :: fns', s :: ss' =>
      (if started s then [(fn, ctx)] else []) ++ called ctx fns' ss'
  | _, _ => []
  end.

(** Whether the watcher has gone past closing the listener. *)
Definition past_close (s : option (pc + outcome)) : bool :=
  match s with
  | Some (inl (WCleanup _)) | Some (inr _) => true
  | _ => false
  end.

Record Run_inv2 (r : runner) (ctx : context) (mu : Handler)
    (st : @Group.gstate world pc) : Prop := mkRunInv2 {
  r2_head : head (w_trace (Group.g_world st)) =
            Some (EvLog (logger r) Debug "group runner start" (keyValues r));
  r2_closed : w_closed (Group.g_world st) = true →
              close_events (w_trace (Group.g_world st)) ≠ [];
  r2_shut : forTesting r = false →
            past_close (Group.g_status st !! watcher_index r) = true →
            w_closed (Group.g_world st) = true;
  r2_called : call_events (w_trace (Group.g_world st)) ≡ₚ
              called ctx (runners r) (drop (S (watcher_index r)) (Group.g_status st))
}.

Record Async_inv2 (r : runner) (ctx : context)
    (st : @Group.gstate world pc) : Prop := mkAsyncInv2 {
  a2_head : head (w_trace (Group.g_world st)) =
            Some (EvLog (logger r) Debug "async runner started" (keyValues r));
  a2_closed : w_closed (Group.g_world st) = false;
  a2_called : call_events (w_trace (Group.g_world st)) ≡ₚ
              called ctx (runners r) (Group.g_status st)
}.

(** *** Schedules that let a run finish *)

(** Let the background actor at position [i] call its function and the
    function return. *)
Definition finish_runFn (i : nat) : list (@Group.item input env) :=
  [Group.SActor i Quiet; Group.SActor i Returns].

(** After cancellation: the watcher runs to its end, the listener
    notices that the server is closed, every background function
    returns, and the goroutine running [Run] collects them all. *)
Definition drain (r : runner) : list (@Group.item input env) :=
  replicate (length (cleanup r) + 3) (Group.SActor (watcher_index r) Quiet) ++
  [Group.SActor 0 Quiet] ++
  flat_map (fun k => finish_runFn (S (watcher_index r) + k)) (seq 0 (length (runners r))) ++
  replicate (S (watcher_index r) + length (runners r) + 3) Group.SMain.

(** Every background function returns and the goroutine running [Async]
    collects them all. *)
Definition drain_async (r : runner) : list (@Group.item input env) :=
  flat_map finish_runFn (seq 0 (length (runners r))) ++
  replicate (length (runners r) + 3) Group.SMain.

(** *** A sample service

    One background function, two cleanups (the second one fails), and
    three schedules: an orderly shutdown by cancellation, a listener that
    cannot bind, and an [Async] run during which the context is
    cancelled. *)
Definition ex_config : DefaultConfig := NewConfig "svc" 8080.
Definition ex_fn : RunFn := mkRunFn 1.
Definition ex_c1 : io_Closer := Closer (mkCloseFn 1 None).
Definition ex_c2 : io_Closer := Closer (mkCloseFn 2 (Some (ErrorString "boom"))).

Definition ex_runner : runner :=
  OnClose (AddRunner (New ex_config 7 []) [ex_fn]) [ex_c1; ex_c2].

Definition ex_testing_runner : runner :=
  OnClose (AddRunner (New ex_config 7 [true]) [ex_fn]) [ex_c1; ex_c2].

Definition ex_cancel_sched : list (@Group.item input env) :=
  [Group.SActor 0 Quiet; Group.SActor 2 Quiet; Group.SEnv (Cancel 5)] ++
  replicate 5 (Group.SActor 1 Quiet) ++
  replicate 5 Group.SMain ++
  [Group.SActor 0 Quiet; Group.SActor 2 Returns; Group.SMain].

Definition ex_fail_sched : list (@Group.item input env) :=
  [Group.SActor 0 (Fails (ErrorString "address in use"))] ++
  replicate 5 Group.SMain ++
  [Group.SActor 2 Quiet; Group.SActor 2 Returns; Group.SEnv (Cancel 5)] ++
  replicate 5 (Group.SActor 1 Quiet) ++
  [Group.SMain].

Definition ex_testing_sched : list (@Group.item input env) :=
  [Group.SActor 1 Quiet; Group.SEnv (Cancel 5)] ++
  replicate 5 (Group.SActor 0 Quiet) ++
  replicate 4 Group.SMain ++
  [Group.SActor 1 Returns; Group.SMain].

Definition ex_async_sched : list (@Group.item input env) :=
  [Group.SEnv (Cancel 5); Group.SActor 0 Quiet; Group.SActor 0 Returns] ++
  replicate 4 Group.SMain.

(** *** Runners behind pointers

    [New] returns a pointer and the methods have pointer receivers and
    return their receiver.  A heap maps locations to runner states:
    [new_runner] is [New] with the allocation, [call_AddRunner] and
    [call_OnClose] are the two methods called through a location, and
    calling them on a location that holds no runner is a nil dereference,
    [None]. *)
Module Ptr.
Definition new_runner (serverConfig : DefaultConfig) (logger : Logger) (testing : list bool)
    (h : gmap nat runner) : nat * gmap nat runner :=
  let p := fresh (dom h) in
  (p, <[p := Runner.New serverConfig logger testing]> h).

Definition call_AddRunner (p : nat) (fns : list RunFn) (h : gmap nat runner)
    : option (nat * gmap nat runner) :=
  r ← h !! p; Some (p, <[p := Runner.AddRunner r fns]> h).

Definition call_OnClose (p : nat) (cs : list io_Closer) (h : gmap nat runner)
    : option (nat * gmap nat runner) :=
  r ← h !! p; Some (p, <[p := Runner.OnClose r cs]> h).
End Ptr.

End Runner.

(** * Facts about the actor group *)
Module GroupFacts.
Section Facts.
Context {W PC I E : Type}.
Variable env_step : E -> W -> W.
Variable g : @Group.Group W PC I.
Import Group.

Local Abbreviation N := (length (actors g)).
Local Abbreviation gstate := (@Group.gstate W PC).
Local Abbreviation item := (@Group.item I E).

Lemma run_sched_snoc (sched : list item) (it : item) (w : W) :
  run_sched env_step g (sched ++ [it]) w =
  sched_step env_step g (run_sched env_step g sched w) it.
Proof. unfold run_sched. by rewrite foldl_app. Qed.

(** Whatever holds at the start and survives every step holds after
    every schedule. *)
Lemma run_sched_ind (P : gstate → Prop) (w : W) :
  P (start g w) →
  (∀ st it, P st → P (sched_step env_step g st it)) →
  ∀ sched, P (run_sched env_step g sched w).
Proof.
  intros H0 Hstep sched. induction sched as [|it sched IH] using rev_ind.
  - exact H0.
  - rewrite run_sched_snoc. by apply Hstep.
Qed.

(** What one step of an actor can do to the group. *)
Lemma actor_step_cases (i : nat) (inp : I) (st : gstate) :
  actor_step g i inp st = st ∨
  ∃ a pc w' s,
    actors g !! i = Some a ∧ g_status st !! i = Some (inl pc) ∧
    a_step a pc inp (g_world st) = Some (w', s) ∧
    actor_step g i inp st =
      {| g_world := w';
         g_status := <[i := s]> (g_status st);
         g_returns := g_returns st ++ match s with inr o => [(i, o)] | inl _ => [] end;
         g_main := g_main st;
         g_interrupts := g_interrupts st |}.
Proof.
  unfold actor_step.
  destruct (actors g !! i) as [a|] eqn:Ha; [|by left].
  destruct (g_status st !! i) as [[pc|o]|] eqn:Hs; [|by left|by left].
  destruct (a_step a pc inp (g_world st)) as [[w' [pc'|o]]|] eqn:Hstep; [| |by left].
  - right. exists a, pc, w', (inl pc'). by rewrite app_nil_r.
  - right. by exists a, pc, w', (inr o).
Qed.

(** What one step of the goroutine running [Run] can do. *)
Lemma main_step_cases (st : gstate) :
  (∃ m, main_step g st = set_main m st) ∨
  ∃ t o j a,
    g_main st = MInterrupt t o j ∧ actors g !! j = Some a ∧ j ≠ t ∧
    main_step g st =
      {| g_world := a_interrupt a o (g_world st);
         g_status := g_status st;
         g_returns := g_returns st;
         g_main := MInterrupt t o (S j);
         g_interrupts := g_interrupts st ++ [(j, o)] |}.
Proof.
  unfold main_step. destruct st as [w ss rs m ints]; simpl.
  destruct m as [|t o j|t o|o]; simpl.
  - left. destruct (actors g); [by eexists|]. destruct rs as [|[t o] rs]; by eexists.
  - destruct (actors g !! j) as [a|] eqn:Ha; [|left; by eexists].
    destruct (decide (j = t)); [left; by eexists|].
    right. by exists t, o, j, a.
  - left. case_decide; by eexists.
  - left. by eexists.
Qed.

Lemma n_returned_le (l : list (PC + outcome)) : n_returned l ≤ length l.
Proof.
  induction l as [|[pc|o] l IH]; simpl; lia.
Qed.

Lemma n_returned_insert (l : list (PC + outcome)) (i : nat) (pc : PC) (s : PC + outcome) :
  l !! i = Some (inl pc) →
  n_returned (<[i := s]> l) = n_returned l + match s with inr _ => 1 | inl _ => 0 end.
Proof.
  revert i. induction l as [|x l IH]; intros i Hi; [done|].
  destruct i as [|i]; simpl in *.
  - injection Hi as ->. destruct s; simpl; lia.
  - specialize (IH i Hi). destruct x; simpl; lia.
Qed.

Lemma n_returned_all (l : list (PC + outcome)) :
  n_returned l = length l → ∀ i s, l !! i = Some s → ∃ o, s = inr o.
Proof.
  induction l as [|x l IH]; intros Hn i s Hi; [done|].
  pose proof (n_returned_le l) as Hle.
  destruct x as [pc|o]; simpl in *; [lia|].
  destruct i as [|i]; simpl in *.
  - injection Hi as <-. by eexists.
  - apply (IH ltac:(lia) i s Hi).
Qed.

Lemma head_snoc {A} (l l' : list A) (x : A) : head l = Some x → head (l ++ l') = Some x.
Proof. by destruct l. Qed.

Lemma interrupts_upto_S (t : nat) (o : outcome) (j : nat) :
  interrupts_upto t o (S j) =
  interrupts_upto t o j ++ (if decide (j = t) then [] else [(j, o)]).
Proof.
  unfold interrupts_upto. rewrite seq_S, filter_app, fmap_app. simpl.
  f_equal. rewrite filter_cons, filter_nil. by repeat case_decide.
Qed.

Lemma interrupts_upto_count (t : nat) (o : outcome) (j k : nat) :
  length (filter (fun c : nat * outcome => c.1 = k) (interrupts_upto t o j)) =
  if decide (k < j ∧ k ≠ t) then 1 else 0.
Proof.
  induction j as [|j IH].
  - rewrite decide_False by lia. done.
  - rewrite interrupts_upto_S, filter_app, length_app, IH.
    destruct (decide (j = t)) as [->|Hjt]; simpl.
    + repeat case_decide; lia.
    + rewrite filter_cons, filter_nil. simpl. repeat case_decide; simpl; lia.
Qed.

Lemma interrupts_upto_arg (t : nat) (o : outcome) (j : nat) (c : nat * outcome) :
  c ∈ interrupts_upto t o j → c.2 = o.
Proof.
  unfold interrupts_upto. intros Hc. apply list_elem_of_fmap in Hc as (k & -> & _). done.
Qed.

Lemma inv_start (w : W) : inv g (start g w).
Proof.
  split; simpl.
  - by rewrite length_fmap.
  - intros i o Hin. by apply elem_of_nil in Hin.
  - by induction (actors g).
  - done.
Qed.

Lemma inv_step (st : gstate) (it : item) :
  inv g st → inv g (sched_step env_step g st it).
Proof.
  intros [Hlen Hret Hcnt Hmain]. destruct it as [i inp| |e]; simpl.
  - destruct (actor_step_cases i inp st) as [->|(a & pc & w' & s & Ha & Hs & Hstep & ->)];
      [by split|].
    split; simpl.
    + by rewrite length_insert.
    + intros i' o' Hin. apply elem_of_app in Hin as [Hin|Hin].
      * specialize (Hret _ _ Hin).
        destruct (decide (i' = i)) as [->|Hne]; [congruence|].
        by rewrite list_lookup_insert_ne.
      * destruct s as [pc'|o]; [by apply elem_of_nil in Hin|].
        apply list_elem_of_singleton in Hin. injection Hin as -> ->.
        apply list_lookup_insert_eq. by eapply lookup_lt_Some.
    + rewrite (n_returned_insert _ _ pc) by done. rewrite length_app, Hcnt.
      by destruct s.
    + unfold main_inv in *; simpl. destruct (g_main st) as [|t o j|t o|o]; [done|..].
      * destruct Hmain as (Hh & Hj & Hi). split_and!; [by apply head_snoc|done|done].
      * destruct Hmain as (Hh & Hi). split; [by apply head_snoc|done].
      * destruct Hmain as [Hm|(t & Hh & Hi & Hl)]; [by left|].
        pose proof (n_returned_le (g_status st)).
        destruct s as [pc'|o']; [right; exists t; by rewrite app_nil_r|].
        pose proof (n_returned_all (g_status st) ltac:(lia) i _ Hs) as [? ?]. done.
  - destruct (main_step_cases st) as [[m Hm]|(t & o & j & a & Hpc & Ha & Hne & Hm)].
    + rewrite Hm. split; simpl; [done..|].
      pose proof (f_equal g_interrupts Hm) as Hints.
      apply (f_equal g_main) in Hm. simpl in Hm, Hints. subst m.
      unfold main_step, main_inv in *.
      destruct (g_main st) as [|t o j|t o|o] eqn:Hpc; simpl.
      * destruct (actors g) eqn:Hact; [by left|].
        destruct (g_returns st) as [|[t o] rs] eqn:Hrs; simpl; [by rewrite Hpc|].
        split_and!; [done|lia|done].
      * destruct Hmain as (Hh & Hj & Hi).
        destruct (actors g !! j) as [a|] eqn:Ha; simpl.
        -- apply lookup_lt_Some in Ha.
           destruct (decide (j = t)) as [->|]; simpl.
           ++ split_and!; [done|lia|].
              rewrite interrupts_upto_S, decide_True, app_nil_r; done.
           ++ simpl in Hints.
              apply (f_equal length) in Hints. rewrite length_app in Hints.
              simpl in Hints. lia.
        -- apply lookup_ge_None in Ha.
           split; [done|]. by replace N with j by lia.
      * destruct Hmain as (Hh & Hi). case_decide; simpl.
        -- right. by exists t.
        -- by rewrite Hpc.
      * by rewrite Hpc.
    + rewrite Hm. split; simpl; [done..|].
      unfold main_inv in *; simpl. rewrite Hpc in Hmain.
      destruct Hmain as (Hh & Hj & Hi). apply lookup_lt_Some in Ha.
      split_and!; [done|lia|].
      by rewrite interrupts_upto_S, decide_False, Hi.
  - by split.
Qed.

Lemma inv_run_sched (sched : list item) (w : W) : inv g (run_sched env_step g sched w).
Proof. apply run_sched_ind; [apply inv_start|apply inv_step]. Qed.

(** *** Progress of the goroutine running [Run] *)

Lemma main_step_returns (st : gstate) : g_returns (main_step g st) = g_returns st.
Proof.
  destruct (main_step_cases st) as [[m ->]|(t & o & j & a & _ & _ & _ & ->)]; done.
Qed.

Lemma main_step_fuel (st : gstate) :
  inv g st → length (g_returns st) = N →
  main_fuel g (g_main (main_step g st)) ≤ pred (main_fuel g (g_main st)).
Proof.
  intros [Hlen Hret Hcnt Hmain] Hall. unfold main_step, main_inv in *.
  destruct (g_main st) as [|t o j|t o|o] eqn:Hpc; simpl.
  - destruct (actors g) as [|a l] eqn:Hact; simpl; [lia|].
    destruct (g_returns st) as [|[t o] rs]; simpl in *; [lia|].
    rewrite Hact. simpl. lia.
  - destruct (actors g !! j) as [a|] eqn:Ha; simpl.
    + apply lookup_lt_Some in Ha. case_decide; simpl; lia.
    + apply lookup_ge_None in Ha. lia.
  - rewrite decide_True by done. simpl. lia.
  - rewrite Hpc. simpl. lia.
Qed.

Lemma main_steps_S (n : nat) (st : gstate) :
  main_steps env_step g (S n) st = main_steps env_step g n (main_step g st).
Proof. done. Qed.

Lemma main_steps_returns (n : nat) (st : gstate) :
  g_returns (main_steps env_step g n st) = g_returns st.
Proof.
  revert st. induction n as [|n IH]; intros st; [done|].
  by rewrite main_steps_S, IH, main_step_returns.
Qed.

Lemma inv_main_steps (n : nat) (st : gstate) :
  inv g st → inv g (main_steps env_step g n st).
Proof.
  revert st. induction n as [|n IH]; intros st Hinv; [done|].
  rewrite main_steps_S. apply IH. apply (inv_step st SMain Hinv).
Qed.

Lemma main_steps_done (n : nat) (st : gstate) :
  inv g st → length (g_returns st) = N → main_fuel g (g_main st) ≤ n →
  ∃ o, g_main (main_steps env_step g n st) = MDone o.
Proof.
  revert st. induction n as [|n IH]; intros st Hinv Hall Hfuel.
  - destruct (g_main st) as [|t o j|t o|o] eqn:Hpc; simpl in Hfuel; try lia.
    by exists o.
  - rewrite main_steps_S. apply IH.
    + apply (inv_step st SMain Hinv).
    + by rewrite main_step_returns.
    + pose proof (main_step_fuel st Hinv Hall). lia.
Qed.

Lemma main_fuel_bound (m : main_pc) : main_fuel g m ≤ N + 3.
Proof. destruct m; simpl; lia. Qed.

(** Once every [execute] has returned, [Run] returns the trigger's
    outcome after at most [N + 3] steps of its own. *)
Lemma main_steps_returned (st : gstate) (t : nat) (o : outcome) :
  inv g st → trigger st = Some (t, o) → length (g_returns st) = N →
  returned (main_steps env_step g (N + 3) st) = Some o.
Proof.
  intros Hinv Htrig Hall.
  destruct (main_steps_done (N + 3) st Hinv Hall (main_fuel_bound _)) as [o' Hdone].
  pose proof (inv_main _ _ (inv_main_steps (N + 3) st Hinv)) as Hmain.
  unfold returned, main_inv, trigger in *. rewrite Hdone in *.
  rewrite main_steps_returns in Hmain.
  destruct Hmain as [(Hact & _)|(t' & Hh & _)].
  - rewrite Hact in Hall. destruct (g_returns st); done.
  - congruence.
Qed.

(** Every [execute] has returned once [Run] has. *)
Lemma returned_all_returned (st : gstate) (r : outcome) :
  inv g st → returned st = Some r →
  ∀ i s, g_status st !! i = Some s → ∃ o, s = inr o.
Proof.
  intros [Hlen Hret Hcnt Hmain] Hr. unfold returned, main_inv in *.
  destruct (g_main st) as [| | |o]; try done.
  destruct Hmain as [(Hact & _)|(t & _ & _ & Hall)].
  - intros i s Hs. apply lookup_lt_Some in Hs. rewrite Hlen, Hact in Hs. simpl in Hs. lia.
  - apply n_returned_all. lia.
Qed.

(** While [Run] has not yet picked a trigger no [execute] result is
    lost: the outcome of [Run] is the value in the head of the returns. *)
Lemma returned_trigger (st : gstate) (r : outcome) :
  inv g st → returned st = Some r →
  (actors g = [] ∧ r = None) ∨ ∃ t, trigger st = Some (t, r) ∧ t < N.
Proof.
  intros [Hlen Hret Hcnt Hmain] Hr. unfold returned, main_inv, trigger in *.
  destruct (g_main st) as [| | |o]; try done. injection Hr as ->.
  destruct Hmain as [(Hact & -> & _)|(t & Hh & _)]; [by left|].
  right. exists t. split; [done|].
  destruct (g_returns st) as [|c rs] eqn:Hrs; [done|]. injection Hh as ->.
  rewrite <-Hlen. eapply lookup_lt_Some, Hret. by left.
Qed.

(** C1. In every run of the group, under every schedule: when the first
    [execute] to return is that of actor [t], with outcome [o], then
    every [interrupt] call made carries [o], none is ever made on [t],
    none is made twice on the same actor, and once [Run] has returned it
    has returned [o] and has called [interrupt] exactly once on each of
    the other actors; and [Run] does return [o], after at most [N + 3]
    steps of its own, as soon as every [execute] has returned. *)
Theorem Run_interrupts_all_but_trigger (sched : list item) (w : W) (t : nat) (o : outcome) :
  trigger (run_sched env_step g sched w) = Some (t, o) →
  t < N ∧
  (∀ c, c ∈ g_interrupts (run_sched env_step g sched w) → c.2 = o) ∧
  interrupt_count t (run_sched env_step g sched w) = 0 ∧
  (∀ k, interrupt_count k (run_sched env_step g sched w) ≤ 1) ∧
  (∀ r, returned (run_sched env_step g sched w) = Some r →
        r = o ∧
        ∀ k, k < N →
             interrupt_count k (run_sched env_step g sched w) =
             if decide (k = t) then 0 else 1) ∧
  (length (g_returns (run_sched env_step g sched w)) = N →
   returned (main_steps env_step g (N + 3) (run_sched env_step g sched w)) = Some o).
Proof.
  pose proof (inv_run_sched sched w) as Hinv.
  set (st := run_sched env_step g sched w) in *. intros Htrig.
  assert (Ht : t < N).
  { destruct Hinv as [Hlen Hret _ _]. unfold trigger in Htrig.
    destruct (g_returns st) as [|c rs] eqn:Hrs; [done|]. injection Htrig as ->.
    rewrite <-Hlen. eapply lookup_lt_Some, Hret. by left. }
  assert (Hshape : g_interrupts st = [] ∨ ∃ j, g_interrupts st = interrupts_upto t o j).
  { destruct Hinv as [_ _ _ Hmain]. unfold main_inv, trigger in *.
    destruct (g_main st) as [|t' o' j|t' o'|o'].
    - by left.
    - destruct Hmain as (Hh & _ & Hi). right. exists j. congruence.
    - destruct Hmain as (Hh & Hi). right. exists N. congruence.
    - destruct Hmain as [(_ & _ & Hi)|(t' & Hh & Hi & _)]; [by left|].
      right. exists N. congruence. }
  split_and!.
  - done.
  - intros c Hc. destruct Hshape as [Hi|[j Hi]]; rewrite Hi in Hc.
    + by apply elem_of_nil in Hc.
    + by eapply interrupts_upto_arg.
  - unfold interrupt_count. destruct Hshape as [->|[j ->]]; [done|].
    rewrite interrupts_upto_count. rewrite decide_False; [done|]. intros [_ ?]. done.
  - intros k. unfold interrupt_count. destruct Hshape as [->|[j ->]]; [simpl; lia|].
    rewrite interrupts_upto_count. case_decide; lia.
  - intros r Hr. destruct Hinv as [_ _ _ Hmain].
    unfold returned, main_inv, trigger, interrupt_count in *.
    destruct (g_main st) as [| | |o']; try done. injection Hr as ->.
    destruct Hmain as [(Hact & _)|(t' & Hh & Hi & _)].
    + rewrite Hact in Ht. simpl in Ht. lia.
    + rewrite Hh in Htrig. injection Htrig as -> ->. split; [done|].
      intros k Hk. rewrite Hi, interrupts_upto_count.
      destruct (decide (k = t)) as [->|Hne].
      * rewrite decide_False; [done|]. intros [_ ?]. done.
      * by rewrite decide_True.
  - intros Hall. by apply (main_steps_returned st t o).
Qed.

End Facts.

Lemma Run_interrupts_all_but_trigger_witness :
  Group.trigger
    (Group.run_sched Runner.env_step
       (Runner.group (Runner.Run_assemble Runner.ex_runner 5 9))
       Runner.ex_fail_sched Runner.world0) =
    Some (0, Some (ErrorString "address in use")) ∧
  ∀ r, Group.returned
         (Group.run_sched Runner.env_step
            (Runner.group (Runner.Run_assemble Runner.ex_runner 5 9))
            Runner.ex_fail_sched Runner.world0) = Some r →
       r = Some (ErrorString "address in use") ∧
       ∀ k, k < 3 →
            Group.interrupt_count k
              (Group.run_sched Runner.env_step
                 (Runner.group (Runner.Run_assemble Runner.ex_runner 5 9))
                 Runner.ex_fail_sched Runner.world0) =
            if decide (k = 0) then 0 else 1.
Proof.
  split; [reflexivity|].
  destruct (Run_interrupts_all_but_trigger Runner.env_step
              (Runner.group (Runner.Run_assemble Runner.ex_runner 5 9))
              Runner.ex_fail_sched Runner.world0 0 (Some (ErrorString "address in use"))
              eq_refl) as (_ & _ & _ & _ & H & _).
  exact H.
Defined.

End GroupFacts.

(** * Facts about the runner *)
Module RunnerFacts.
Import Config Runner.

Local Abbreviation gstate := (@Group.gstate world pc).
Local Abbreviation item := (@Group.item input env).

(** ** The actors [Run] and [Async] assemble *)

Lemma foldl_runner_Add_runFn (ctx : context) (fns : list RunFn) (r : runner) :
  foldl (fun r' fn => runner_Add r' (runFn_actor fn ctx)) r fns =
  {| group := {| Group.actors :=
                   Group.actors (group r) ++ ((fun fn => runFn_actor fn ctx) <$> fns) |};
     serverConfig := serverConfig r;
     logger := logger r;
     runners := runners r;
     cleanup := cleanup r;
     forTesting := forTesting r |}.
Proof.
  revert r. induction fns as [|fn fns IH]; intros r; simpl.
  - rewrite app_nil_r. by destruct r as [[?] ? ? ? ? ?].
  - rewrite IH. simpl. by rewrite <-app_assoc.
Qed.

Lemma Async_actors (r : runner) (ctx : context) :
  Group.actors (group (Async_assemble r ctx)) =
  Group.actors (group r) ++ ((fun fn => runFn_actor fn ctx) <$> runners r).
Proof. unfold Async_assemble, add_runners. by rewrite foldl_runner_Add_runFn. Qed.

Lemma Run_actors (r : runner) (ctx : context) (mu : Handler) :
  Group.actors (group (Run_assemble r ctx mu)) =
  Group.actors (group r) ++
  (if forTesting r then []
   else [http_actor r {| Addr := addr (serverConfig r); Handler_of := mu |}]) ++
  watcher_actor r ctx (Run_srv r mu) ::
  ((fun fn => runFn_actor fn ctx) <$> runners r).
Proof.
  unfold Run_assemble, Run_srv, startHttpServer, add_runners.
  destruct (forTesting r); simpl; rewrite foldl_runner_Add_runFn; simpl.
  - by rewrite <-app_assoc.
  - by rewrite <-!app_assoc.
Qed.

Lemma Run_assemble_logger (r : runner) (ctx : context) (mu : Handler) :
  logger (Run_assemble r ctx mu) = logger r ∧
  forTesting (Run_assemble r ctx mu) = forTesting r.
Proof.
  unfold Run_assemble, startHttpServer, add_runners.
  destruct (forTesting r) eqn:Hft; simpl; rewrite foldl_runner_Add_runFn; simpl; done.
Qed.

Lemma Async_assemble_logger (r : runner) (ctx : context) :
  logger (Async_assemble r ctx) = logger r ∧
  forTesting (Async_assemble r ctx) = forTesting r.
Proof. unfold Async_assemble, add_runners. by rewrite foldl_runner_Add_runFn. Qed.

(** Which actor sits at position [i] of the group of [Run]. *)
Lemma Run_actor_lookup (r : runner) (ctx : context) (mu : Handler) (i : nat) (a : actor) :
  Group.actors (group r) = [] →
  Group.actors (group (Run_assemble r ctx mu)) !! i = Some a →
  (forTesting r = false ∧ i = 0 ∧
   a = http_actor r {| Addr := addr (serverConfig r); Handler_of := mu |}) ∨
  (i = watcher_index r ∧ a = watcher_actor r ctx (Run_srv r mu)) ∨
  (∃ k fn, i = S (watcher_index r) + k ∧ runners r !! k = Some fn ∧
           a = runFn_actor fn ctx).
Proof.
  intros Hfresh. rewrite Run_actors, Hfresh. unfold watcher_index. simpl.
  destruct (forTesting r); simpl.
  - destruct i as [|k]; simpl.
    + intros [= <-]. right. by left.
    + rewrite list_lookup_fmap. intros Hk. right. right.
      destruct (runners r !! k) as [fn|] eqn:Hfn; [|done].
      injection Hk as <-. by exists k, fn.
  - destruct i as [|[|k]]; simpl.
    + intros [= <-]. by left.
    + intros [= <-]. right. by left.
    + rewrite list_lookup_fmap. intros Hk. right. right.
      destruct (runners r !! k) as [fn|] eqn:Hfn; [|done].
      injection Hk as <-. by exists k, fn.
Qed.

Lemma Async_actor_lookup (r : runner) (ctx : context) (i : nat) (a : actor) :
  Group.actors (group r) = [] →
  Group.actors (group (Async_assemble r ctx)) !! i = Some a →
  ∃ fn, runners r !! i = Some fn ∧ a = runFn_actor fn ctx.
Proof.
  intros Hfresh. rewrite Async_actors, Hfresh. simpl.
  rewrite list_lookup_fmap. intros Hi.
  destruct (runners r !! i) as [fn|] eqn:Hfn; [|done].
  injection Hi as <-. by exists fn.
Qed.

(** ** Traces *)

Lemma close_events_snoc (tr : list event) (e : event) :
  close_events (tr ++ [e]) =
  close_events tr ++ match e with EvClose c => [c] | _ => [] end.
Proof. unfold close_events. rewrite omap_app. by destruct e. Qed.

Lemma call_events_snoc (tr : list event) (e : event) :
  call_events (tr ++ [e]) =
  call_events tr ++ match e with EvCall fn ctx => [(fn, ctx)] | _ => [] end.
Proof. unfold call_events. rewrite omap_app. by destruct e. Qed.

Lemma listen_events_snoc (tr : list event) (e : event) :
  listen_events (tr ++ [e]) =
  listen_events tr ++ match e with EvListen a => [a] | _ => [] end.
Proof. unfold listen_events. rewrite omap_app. by destruct e. Qed.

Lemma exit_events_snoc (tr : list event) (e : event) :
  exit_events (tr ++ [e]) =
  exit_events tr ++ match e with EvExit c => [c] | _ => [] end.
Proof. unfold exit_events. rewrite omap_app. by destruct e. Qed.

Lemma error_logs_snoc (tr : list event) (e : event) :
  error_logs (tr ++ [e]) =
  error_logs tr ++ match e with EvLog _ Error m kv => [(m, kv)] | _ => [] end.
Proof. unfold error_logs. rewrite omap_app. by destruct e as [| | |? [|] ? ?|]. Qed.

Ltac trace_simpl :=
  unfold Close, shut, emit in *; simpl in *;
  rewrite ?close_events_snoc, ?call_events_snoc, ?listen_events_snoc,
    ?exit_events_snoc, ?error_logs_snoc;
  simpl; rewrite ?app_nil_r.

(** ** What each invariant depends on *)

Lemma http_inv_frame (a : string) (s : option (pc + outcome)) (w w' : world) :
  listen_events (w_trace w') = listen_events (w_trace w) →
  http_inv a s w → http_inv a s w'.
Proof. unfold http_inv. intros ->. done. Qed.

Lemma watcher_inv_frame (ctx : context) (srv : io_Closer) (cs : list io_Closer)
    (s : option (pc + outcome)) (w w' : world) :
  w_done w ⊆ w_done w' →
  close_events (w_trace w') = close_events (w_trace w) →
  watcher_inv ctx srv cs s w → watcher_inv ctx srv cs s w'.
Proof.
  unfold watcher_inv. intros Hd ->.
  destruct s as [[[]|o]|]; try done.
  - intros [Hin Hc]. split; [by apply Hd|done].
  - intros [Hin Hc]. split; [by apply Hd|done].
  - intros (Ho & Hin & Hc). split_and!; [done|by apply Hd|done].
Qed.

Lemma runFn_inv_frame (fn : RunFn) (ctx : context) (s : option (pc + outcome)) (w w' : world) :
  call_events (w_trace w) ⊆ call_events (w_trace w') →
  runFn_inv fn ctx s w → runFn_inv fn ctx s w'.
Proof.
  unfold runFn_inv. intros Hk.
  destruct s as [[[]|o]|]; try done.
  - apply Hk.
  - intros [Ho Hin]. split; [done|by apply Hk].
Qed.

(** ** What one step of each actor does *)

Lemma http_step_spec (srv : Server) (p : pc) (inp : input) (w w' : world) (s : pc + outcome) :
  http_step srv p inp w = Some (w', s) →
  http_inv (Addr srv) (Some (inl p)) w →
  http_inv (Addr srv) (Some s) w' ∧
  w_done w' = w_done w ∧
  close_events (w_trace w') = close_events (w_trace w) ∧
  call_events (w_trace w') = call_events (w_trace w) ∧
  exit_events (w_trace w') = exit_events (w_trace w) ∧
  error_logs (w_trace w') = error_logs (w_trace w) ∧
  (listen_events (w_trace w') = listen_events (w_trace w) ∨
   listen_events (w_trace w') = listen_events (w_trace w) ++ [Addr srv]).
Proof.
  unfold http_step, http_inv, http_execute.
  destruct p; try done; intros Hstep Hinv;
    destruct (w_closed w); [| destruct inp as [| |e] | | destruct inp as [| |e]];
    simplify_eq; trace_simpl; rewrite ?Hinv; simpl;
    repeat split; auto;
    try (intros e' He'; destruct (errors_Is_ErrServerClosed e) eqn:He; simpl in He';
         simplify_eq; done);
    try (intros e' He'; simplify_eq; done).
Qed.

Lemma Close_spec (c : io_Closer) (w : world) :
  close_events (w_trace (Close c w).2) = close_events (w_trace w) ++ [c] ∧
  w_done (Close c w).2 = w_done w ∧
  listen_events (w_trace (Close c w).2) = listen_events (w_trace w) ∧
  call_events (w_trace (Close c w).2) = call_events (w_trace w) ∧
  exit_events (w_trace (Close c w).2) = exit_events (w_trace w) ∧
  error_logs (w_trace (Close c w).2) = error_logs (w_trace w).
Proof. destruct c; trace_simpl; done. Qed.

Lemma watcher_step_spec (ctx : context) (srv : io_Closer) (cs : list io_Closer)
    (p : pc) (inp : input) (w w' : world) (s : pc + outcome) :
  watcher_step ctx srv cs p inp w = Some (w', s) →
  watcher_inv ctx srv cs (Some (inl p)) w →
  watcher_inv ctx srv cs (Some s) w' ∧
  w_done w' = w_done w ∧
  listen_events (w_trace w') = listen_events (w_trace w) ∧
  call_events (w_trace w') = call_events (w_trace w) ∧
  exit_events (w_trace w') = exit_events (w_trace w) ∧
  error_logs (w_trace w') = error_logs (w_trace w).
Proof.
  unfold watcher_step, watcher_inv. destruct p as [| | | |rest| |]; try done; intros Hstep Hinv.
  - case_bool_decide; simplify_eq. done.
  - simplify_eq. destruct Hinv as [Hd Hc].
    destruct (Close_spec srv w) as (HC & HD & HL & HK & HX & HG).
    rewrite HC, HD, HL, HK, HX, HG, Hc. split_and!; try done. by exists [].
  - destruct Hinv as (Hd & pre & -> & Hc). destruct rest as [|c rest]; simplify_eq.
    + rewrite app_nil_r. by split_and!.
    + destruct (Close_spec c w) as (HC & HD & HL & HK & HX & HG).
      rewrite HC, HD, HL, HK, HX, HG, Hc. split_and!; try done.
      exists (pre ++ [c]). by rewrite <-app_assoc.
Qed.

Lemma runFn_step_spec (fn : RunFn) (ctx : context)
    (p : pc) (inp : input) (w w' : world) (s : pc + outcome) :
  runFn_step fn ctx p inp w = Some (w', s) →
  runFn_inv fn ctx (Some (inl p)) w →
  runFn_inv fn ctx (Some s) w' ∧
  w_done w' = w_done w ∧
  close_events (w_trace w') = close_events (w_trace w) ∧
  listen_events (w_trace w') = listen_events (w_trace w) ∧
  exit_events (w_trace w') = exit_events (w_trace w) ∧
  error_logs (w_trace w') = error_logs (w_trace w) ∧
  (call_events (w_trace w') = call_events (w_trace w) ∨
   call_events (w_trace w') = call_events (w_trace w) ++ [(fn, ctx)]).
Proof.
  unfold runFn_step, runFn_inv. destruct p; try done; intros Hstep Hinv.
  - simplify_eq. trace_simpl. split_and!; try done; [|by right].
    apply elem_of_app. right. by left.
  - destruct inp; simplify_eq. split_and!; try done. by left.
Qed.

Lemma http_interrupt_spec (lg : Logger) (name : string) (o : outcome) (w : world) :
  w_done (http_interrupt lg name o w) = w_done w ∧
  close_events (w_trace (http_interrupt lg name o w)) = close_events (w_trace w) ∧
  listen_events (w_trace (http_interrupt lg name o w)) = listen_events (w_trace w) ∧
  call_events (w_trace (http_interrupt lg name o w)) = call_events (w_trace w) ∧
  exit_events (w_trace (http_interrupt lg name o w)) = exit_events (w_trace w) ∧
  ∀ m kv, (m, kv) ∈ error_logs (w_trace (http_interrupt lg name o w)) →
          (m, kv) ∈ error_logs (w_trace w) ∨ m = "http server failure".
Proof.
  unfold http_interrupt. destruct o as [e|]; trace_simpl; split_and!; try done; [|by left].
  intros m kv Hin. apply elem_of_app in Hin as [Hin|Hin]; [by left|].
  apply list_elem_of_singleton in Hin. simplify_eq. by right.
Qed.

(** ** The invariant of [Run] *)

Lemma Run_inv_start (r : runner) (ctx : context) (mu : Handler) (lg : Logger)
    (m : string) (kv : list logval) :
  Group.actors (group r) = [] →
  Run_inv r ctx mu
    (Group.start (group (Run_assemble r ctx mu)) (emit (EvLog lg Debug m kv) world0)).
Proof.
  intros Hfresh. unfold Group.start. rewrite Run_actors, Hfresh.
  destruct (forTesting r) eqn:Hft; split; unfold watcher_index; rewrite ?Hft; simpl; try done.
  - intros k fn Hk. rewrite !list_lookup_fmap, Hk. done.
  - intros fn c Hin. by apply elem_of_nil in Hin.
  - intros m' kv' Hin. by apply elem_of_nil in Hin.
  - intros k fn Hk. rewrite !list_lookup_fmap, Hk. done.
  - intros fn c Hin. by apply elem_of_nil in Hin.
  - intros m' kv' Hin. by apply elem_of_nil in Hin.
Qed.

Lemma Run_inv_step (r : runner) (ctx : context) (mu : Handler) (st : gstate) (it : item) :
  Group.actors (group r) = [] →
  Run_inv r ctx mu st →
  Run_inv r ctx mu (Group.sched_step env_step (group (Run_assemble r ctx mu)) st it).
Proof.
  intros Hfresh [Hhttp Hlisten Hwatch Hfn Hcalls Hexit Hlog].
  destruct it as [i inp| |e]; simpl.
  - destruct (GroupFacts.actor_step_cases (group (Run_assemble r ctx mu)) i inp st)
      as [->|(a & p & w' & s & Ha & Hs & Hstep & ->)]; [by split|].
    pose proof (lookup_lt_Some _ _ _ Hs) as Hlt.
    apply Run_actor_lookup in Ha as [(Hft & -> & ->)|[(-> & ->)|(k & fn & -> & Hk & ->)]];
      [| | |done].
    + simpl in Hstep. specialize (Hhttp Hft). rewrite Hs in Hhttp.
      destruct (http_step_spec _ _ _ _ _ _ Hstep Hhttp)
        as (Hs' & HD & HC & HK & HX & HG & HL).
      assert (Hwi : watcher_index r = 1) by (unfold watcher_index; by rewrite Hft).
      rewrite Hwi in *.
      split; simpl.
      * intros _. by rewrite list_lookup_insert_eq.
      * congruence.
      * rewrite Hwi, list_lookup_insert_ne by done.
        eapply watcher_inv_frame; [| |exact Hwatch]; [by rewrite HD|done].
      * intros k fn Hk. rewrite Hwi, list_lookup_insert_ne by lia.
        eapply runFn_inv_frame; [|by apply Hfn]. by rewrite HK.
      * by rewrite HK.
      * by rewrite HX.
      * by rewrite HG.
    + simpl in Hstep. rewrite Hs in Hwatch.
      destruct (watcher_step_spec _ _ _ _ _ _ _ _ Hstep Hwatch)
        as (Hs' & HD & HL & HK & HX & HG).
      split; simpl.
      * intros Hft. specialize (Hhttp Hft).
        assert (Hwi : watcher_index r = 1) by (unfold watcher_index; by rewrite Hft).
        rewrite Hwi, list_lookup_insert_ne by done.
        by eapply http_inv_frame.
      * intros Hft. rewrite HL. by apply Hlisten.
      * by rewrite list_lookup_insert_eq.
      * intros k fn Hk. rewrite list_lookup_insert_ne by lia.
        eapply runFn_inv_frame; [|by apply Hfn]. by rewrite HK.
      * by rewrite HK.
      * by rewrite HX.
      * by rewrite HG.
    + simpl in Hstep. pose proof (Hfn k fn Hk) as Hfnk. rewrite Hs in Hfnk.
      destruct (runFn_step_spec _ _ _ _ _ _ _ Hstep Hfnk)
        as (Hs' & HD & HC & HL & HX & HG & HK).
      assert (HKsub : call_events (w_trace (Group.g_world st)) ⊆ call_events (w_trace w')).
      { destruct HK as [->| ->]; [done|]. intros x Hx. apply elem_of_app. by left. }
      split; simpl.
      * intros Hft. specialize (Hhttp Hft). rewrite list_lookup_insert_ne by lia.
        by eapply http_inv_frame.
      * intros Hft. rewrite HL. by apply Hlisten.
      * rewrite list_lookup_insert_ne by lia.
        eapply watcher_inv_frame; [| |exact Hwatch]; [by rewrite HD|done].
      * intros k' fn' Hk'. destruct (decide (k' = k)) as [->|Hne].
        -- rewrite list_lookup_insert_eq by done. by simplify_eq.
        -- rewrite list_lookup_insert_ne by lia.
           eapply runFn_inv_frame; [|by apply Hfn]. done.
      * intros fn' c Hin. destruct HK as [HK|HK]; rewrite HK in Hin; [by apply Hcalls|].
        apply elem_of_app in Hin as [Hin|Hin]; [by apply Hcalls|].
        apply list_elem_of_singleton in Hin. simplify_eq. split; [done|].
        by eapply list_elem_of_lookup_2.
      * by rewrite HX.
      * by rewrite HG.
  - destruct (GroupFacts.main_step_cases (group (Run_assemble r ctx mu)) st)
      as [[m ->]|(t & o & j & a & Hpc & Ha & Hne & ->)]; [by split|].
    apply Run_actor_lookup in Ha as [(Hft & -> & ->)|[(-> & ->)|(k & fn & -> & Hk & ->)]];
      [|by split|by split|done].
    simpl.
    destruct (http_interrupt_spec (logger r) (Name (serverConfig r)) o (Group.g_world st))
      as (HD & HC & HL & HK & HX & HG).
    split; simpl.
    + intros _. eapply http_inv_frame; [|by apply Hhttp]. done.
    + congruence.
    + eapply watcher_inv_frame; [| |exact Hwatch]; [by rewrite HD|done].
    + intros k fn Hk. eapply runFn_inv_frame; [|by apply Hfn]. by rewrite HK.
    + by rewrite HK.
    + by rewrite HX.
    + intros m kv Hin. apply HG in Hin as [Hin|Hin]; [by eapply Hlog|done].
  - destruct e as [c]. split; simpl; try done.
    eapply watcher_inv_frame; [| |exact Hwatch]; simpl; [|done].
    intros x Hx. by right.
Qed.

Lemma Run_inv_sched (r : runner) (ctx : context) (mu : Handler) (sched : list item) :
  Group.actors (group r) = [] →
  Run_inv r ctx mu (Run_group r ctx mu sched world0).
Proof.
  intros Hfresh. unfold Run_group. apply GroupFacts.run_sched_ind.
  - by apply Run_inv_start.
  - intros st it. by apply Run_inv_step.
Qed.

(** ** The invariant of [Async] *)

Lemma Async_inv_start (r : runner) (ctx : context) (lg : Logger)
    (m : string) (kv : list logval) :
  Group.actors (group r) = [] →
  Async_inv r ctx
    (Group.start (group (Async_assemble r ctx)) (emit (EvLog lg Debug m kv) world0)).
Proof.
  intros Hfresh. unfold Group.start. rewrite Async_actors, Hfresh.
  split; simpl; try done.
  - intros k fn Hk. rewrite !list_lookup_fmap, Hk. done.
  - intros fn c Hin. by apply elem_of_nil in Hin.
Qed.

Lemma Async_inv_step (r : runner) (ctx : context) (st : gstate) (it : item) :
  Group.actors (group r) = [] →
  Async_inv r ctx st →
  Async_inv r ctx (Group.sched_step env_step (group (Async_assemble r ctx)) st it).
Proof.
  intros Hfresh [Hfn Hcalls Hclose Hlisten Hexit Hlog].
  destruct it as [i inp| |e]; simpl.
  - destruct (GroupFacts.actor_step_cases (group (Async_assemble r ctx)) i inp st)
      as [->|(a & p & w' & s & Ha & Hs & Hstep & ->)]; [by split|].
    pose proof (lookup_lt_Some _ _ _ Hs) as Hlt.
    apply Async_actor_lookup in Ha as (fn & Hk & ->); [|done].
    simpl in Hstep. pose proof (Hfn i fn Hk) as Hfnk. rewrite Hs in Hfnk.
    destruct (runFn_step_spec _ _ _ _ _ _ _ Hstep Hfnk)
      as (Hs' & HD & HC & HL & HX & HG & HK).
    assert (HKsub : call_events (w_trace (Group.g_world st)) ⊆ call_events (w_trace w')).
    { destruct HK as [->| ->]; [done|]. intros x Hx. apply elem_of_app. by left. }
    split; simpl.
    + intros k' fn' Hk'. destruct (decide (k' = i)) as [->|Hne].
      * rewrite list_lookup_insert_eq by done. by simplify_eq.
      * rewrite list_lookup_insert_ne by lia.
        eapply runFn_inv_frame; [|by apply Hfn]. done.
    + intros fn' c Hin. destruct HK as [HK|HK]; rewrite HK in Hin; [by apply Hcalls|].
      apply elem_of_app in Hin as [Hin|Hin]; [by apply Hcalls|].
      apply list_elem_of_singleton in Hin. simplify_eq. split; [done|].
      by eapply list_elem_of_lookup_2.
    + by rewrite HC.
    + by rewrite HL.
    + by rewrite HX.
    + by rewrite HG.
  - destruct (GroupFacts.main_step_cases (group (Async_assemble r ctx)) st)
      as [[m ->]|(t & o & j & a & Hpc & Ha & Hne & ->)]; [by split|].
    apply Async_actor_lookup in Ha as (fn & Hk & ->); [|done]. by split.
  - destruct e as [c]. by split.
Qed.

Lemma Async_inv_sched (r : runner) (ctx : context) (sched : list item) :
  Group.actors (group r) = [] →
  Async_inv r ctx (Async_group r ctx sched world0).
Proof.
  intros Hfresh. unfold Async_group. apply GroupFacts.run_sched_ind.
  - by apply Async_inv_start.
  - intros st it. by apply Async_inv_step.
Qed.

(** ** The watcher runs to completion once its context is cancelled *)

Lemma Run_watcher_lookup (r : runner) (ctx : context) (mu : Handler) :
  Group.actors (group r) = [] →
  Group.actors (group (Run_assemble r ctx mu)) !! watcher_index r =
  Some (watcher_actor r ctx (Run_srv r mu)).
Proof.
  intros Hfresh. rewrite Run_actors, Hfresh. unfold watcher_index.
  by destruct (forTesting r).
Qed.

Lemma Run_runFn_lookup (r : runner) (ctx : context) (mu : Handler) (k : nat) (fn : RunFn) :
  Group.actors (group r) = [] →
  runners r !! k = Some fn →
  Group.actors (group (Run_assemble r ctx mu)) !! (S (watcher_index r) + k) =
  Some (runFn_actor fn ctx).
Proof.
  intros Hfresh Hk. rewrite Run_actors, Hfresh. unfold watcher_index.
  destruct (forTesting r); simpl; by rewrite list_lookup_fmap, Hk.
Qed.

Lemma watcher_step_fuel (r : runner) (ctx : context) (mu : Handler) (st : gstate) :
  Group.actors (group r) = [] →
  Run_inv r ctx mu st →
  ctx ∈ w_done (Group.g_world st) →
  let st' := Group.actor_step (group (Run_assemble r ctx mu)) (watcher_index r) Quiet st in
  watcher_fuel (cleanup r) (Group.g_status st' !! watcher_index r) ≤
    pred (watcher_fuel (cleanup r) (Group.g_status st !! watcher_index r)) ∧
  ctx ∈ w_done (Group.g_world st').
Proof.
  intros Hfresh Hinv Hdone. pose proof (ri_watcher _ _ _ _ Hinv) as Hw.
  unfold Group.actor_step. rewrite Run_watcher_lookup by done.
  destruct (Group.g_status st !! watcher_index r) as [[p|o]|] eqn:Hs; [|simpl; by rewrite Hs|done].
  pose proof (lookup_lt_Some _ _ _ Hs) as Hlt.
  unfold watcher_inv in Hw. simpl.
  destruct p as [| | | |rest| |]; simpl; try done.
  - rewrite bool_decide_true by done. simpl.
    rewrite list_lookup_insert_eq by done. simpl. split; [lia|done].
  - rewrite list_lookup_insert_eq by done. simpl.
    destruct (Close_spec (Run_srv r mu) (Group.g_world st)) as (_ & -> & _).
    split; [lia|done].
  - destruct rest as [|c rest]; simpl; rewrite list_lookup_insert_eq by done; simpl.
    + split; [lia|done].
    + destruct (Close_spec c (Group.g_world st)) as (_ & -> & _). split; [lia|done].
Qed.

Lemma watcher_steps_S (r : runner) (ctx : context) (mu : Handler) (n : nat) (st : gstate) :
  watcher_steps r ctx mu (S n) st =
  watcher_steps r ctx mu n
    (Group.actor_step (group (Run_assemble r ctx mu)) (watcher_index r) Quiet st).
Proof. done. Qed.

Lemma watcher_steps_done (r : runner) (ctx : context) (mu : Handler) (n : nat) (st : gstate) :
  Group.actors (group r) = [] →
  Run_inv r ctx mu st →
  ctx ∈ w_done (Group.g_world st) →
  watcher_fuel (cleanup r) (Group.g_status st !! watcher_index r) ≤ n →
  Group.g_status (watcher_steps r ctx mu n st) !! watcher_index r = Some (inr None).
Proof.
  intros Hfresh. revert st. induction n as [|n IH]; intros st Hinv Hdone Hfuel.
  - pose proof (ri_watcher _ _ _ _ Hinv) as Hw. unfold watcher_inv in Hw.
    change (watcher_steps r ctx mu 0 st) with st.
    destruct (Group.g_status st !! watcher_index r) as [[p|o]|]; [| |done].
    + exfalso. destruct p; simpl in Hfuel; first [lia | done].
    + by destruct Hw as (-> & _).
  - rewrite watcher_steps_S.
    destruct (watcher_step_fuel r ctx mu st Hfresh Hinv Hdone) as [Hf Hd].
    apply IH; [|done|lia].
    apply (Run_inv_step r ctx mu st (Group.SActor (watcher_index r) Quiet) Hfresh Hinv).
Qed.

(** Under the invariant the [Close] calls made so far are an initial part
    of: the listener's closer, then the cleanups in registration order. *)
Lemma Run_close_prefix (r : runner) (ctx : context) (mu : Handler) (st : gstate) :
  Run_inv r ctx mu st →
  close_events (w_trace (Group.g_world st)) `prefix_of` Run_srv r mu :: cleanup r ∧
  (close_events (w_trace (Group.g_world st)) ≠ [] → ctx ∈ w_done (Group.g_world st)) ∧
  (∀ o, Group.g_status st !! watcher_index r = Some (inr o) →
        o = None ∧
        close_events (w_trace (Group.g_world st)) = Run_srv r mu :: cleanup r).
Proof.
  intros Hinv. pose proof (ri_watcher _ _ _ _ Hinv) as Hw. unfold watcher_inv in Hw.
  destruct (Group.g_status st !! watcher_index r) as [[p|o]|]; [| |done].
  - destruct p as [| | | |rest| |]; try done.
    + rewrite Hw. split_and!; [apply prefix_nil|done|done].
    + destruct Hw as [Hd ->]. split_and!; [apply prefix_nil|done|done].
    + destruct Hw as (Hd & pre & -> & ->). split_and!; [|done|done].
      exists rest. done.
  - destruct Hw as (-> & Hd & ->). split_and!; [done|done|].
    intros o [= <-]. done.
Qed.

(** Once the group of [Run] has returned, the watcher has. *)
Lemma Run_returned_watcher (r : runner) (ctx : context) (mu : Handler)
    (sched : list item) (o : outcome) :
  Group.actors (group r) = [] →
  Group.returned (Run_group r ctx mu sched world0) = Some o →
  Group.g_status (Run_group r ctx mu sched world0) !! watcher_index r = Some (inr None).
Proof.
  intros Hfresh Hret.
  pose proof (Run_inv_sched r ctx mu sched Hfresh) as Hinv.
  pose proof (ri_watcher _ _ _ _ Hinv) as Hw. unfold watcher_inv in Hw.
  destruct (Group.g_status (Run_group r ctx mu sched world0) !! watcher_index r)
    as [s|] eqn:Hs; [|done].
  unfold Run_group in *.
  destruct (GroupFacts.returned_all_returned _ _ o
              (GroupFacts.inv_run_sched env_step _ sched _) Hret _ _ Hs) as [o' ->].
  by destruct Hw as (-> & _).
Qed.

Lemma watcher_fuel_le (r : runner) (ctx : context) (mu : Handler) (st : gstate) :
  Run_inv r ctx mu st →
  watcher_fuel (cleanup r) (Group.g_status st !! watcher_index r) ≤ length (cleanup r) + 3.
Proof.
  intros Hinv. pose proof (ri_watcher _ _ _ _ Hinv) as Hw. unfold watcher_inv in Hw.
  destruct (Group.g_status st !! watcher_index r) as [[p|o]|]; simpl; [|lia|lia].
  destruct p as [| | | |rest| |]; simpl; try lia.
  destruct Hw as (_ & pre & -> & _). rewrite length_app. lia.
Qed.

Lemma finish_world (r : runner) (mode : string) (st : gstate) :
  match finish r mode st with
  | Blocked _ => Group.returned st = None
  | Returned w => Group.returned st = Some None ∧ w = Group.g_world st
  | Exited c w =>
      ∃ e, Group.returned st = Some (Some e) ∧ c = 1%Z ∧
           w_trace w = w_trace (Group.g_world st) ++
             [EvLog (logger r) Error "group runner failure"
                [LStr "mode"; LStr mode; LStr "err"; LErr e];
              EvExit 1]
  end.
Proof.
  unfold finish. destruct (Group.returned st) as [[e|]|]; [|done|done].
  exists e. split_and!; [done|done|]. simpl. by rewrite <-app_assoc.
Qed.

(** A failed [execute] in the group of [Run] is the listener's. *)
Lemma Run_status_failure (r : runner) (ctx : context) (mu : Handler)
    (st : gstate) (t : nat) (e : error) :
  Group.actors (group r) = [] →
  Group.inv (group (Run_assemble r ctx mu)) st →
  Run_inv r ctx mu st →
  Group.g_status st !! t = Some (inr (Some e)) →
  forTesting r = false ∧ t = 0 ∧ errors_Is_ErrServerClosed e = false.
Proof.
  intros Hfresh Hg Hinv Ht.
  assert (is_Some (Group.actors (group (Run_assemble r ctx mu)) !! t)) as [a Ha].
  { apply lookup_lt_is_Some. rewrite <-(Group.inv_len _ _ Hg). by eapply lookup_lt_Some. }
  apply Run_actor_lookup in Ha as [(Hft & -> & _)|[(-> & _)|(k & fn & -> & Hk & _)]]; [| | |done].
  - pose proof (ri_http _ _ _ _ Hinv Hft) as Hh. rewrite Ht in Hh. simpl in Hh.
    destruct Hh as [_ He]. split_and!; [done|done|by apply He].
  - pose proof (ri_watcher _ _ _ _ Hinv) as Hw. rewrite Ht in Hw. by destruct Hw.
  - pose proof (ri_runFn _ _ _ _ Hinv k fn Hk) as Hf. rewrite Ht in Hf. by destruct Hf.
Qed.

Lemma Async_status_success (r : runner) (ctx : context) (st : gstate) (t : nat) (o : outcome) :
  Group.actors (group r) = [] →
  Group.inv (group (Async_assemble r ctx)) st →
  Async_inv r ctx st →
  Group.g_status st !! t = Some (inr o) →
  o = None.
Proof.
  intros Hfresh Hg Hinv Ht.
  assert (is_Some (Group.actors (group (Async_assemble r ctx)) !! t)) as [a Ha].
  { apply lookup_lt_is_Some. rewrite <-(Group.inv_len _ _ Hg). by eapply lookup_lt_Some. }
  apply Async_actor_lookup in Ha as (fn & Hk & _); [|done].
  pose proof (ai_runFn _ _ _ Hinv t fn Hk) as Hf. rewrite Ht in Hf. by destruct Hf.
Qed.

(** The status of the trigger is the outcome it returned. *)
Lemma trigger_status (g : Group) (st : gstate) (t : nat) (o : outcome) :
  Group.inv g st → Group.trigger st = Some (t, o) →
  Group.g_status st !! t = Some (inr o).
Proof.
  intros Hg Htrig. apply (Group.inv_ret _ _ Hg). unfold Group.trigger in Htrig.
  destruct (Group.g_returns st) as [|c rs]; [done|]. injection Htrig as ->. by left.
Qed.

(** ** The cancellation watcher *)

(** C2. For every fresh runner, every list of registered cleanups and
    every schedule of [Run]: the [Close] calls made are always an initial
    part of "the listener's closer, then the cleanups in registration
    order" (so the listener is closed first and no cleanup is released
    twice or out of order, whatever the releases return); none is made
    before the context is cancelled; when the watcher has returned it has
    returned nil and the whole sequence has been run; that is the case
    whenever the group, and so [Run], has returned or exited; and once
    the context is cancelled the watcher does return after at most
    [length cleanup + 3] steps of its own. *)
Theorem Run_watcher_releases_in_order (r : runner) (ctx : context) (mu : Handler)
    (sched : list item) :
  Group.actors (group r) = [] →
  close_events (w_trace (Group.g_world (Run_group r ctx mu sched world0)))
    `prefix_of` Run_srv r mu :: cleanup r ∧
  (close_events (w_trace (Group.g_world (Run_group r ctx mu sched world0))) ≠ [] →
   ctx ∈ w_done (Group.g_world (Run_group r ctx mu sched world0))) ∧
  (∀ o, Group.g_status (Run_group r ctx mu sched world0) !! watcher_index r = Some (inr o) →
        o = None ∧
        close_events (w_trace (Group.g_world (Run_group r ctx mu sched world0))) =
        Run_srv r mu :: cleanup r) ∧
  (∀ o, Group.returned (Run_group r ctx mu sched world0) = Some o →
        close_events (w_trace (Group.g_world (Run_group r ctx mu sched world0))) =
        Run_srv r mu :: cleanup r) ∧
  (∀ w, Run r ctx mu sched world0 = Returned w →
        close_events (w_trace w) = Run_srv r mu :: cleanup r) ∧
  (∀ c w, Run r ctx mu sched world0 = Exited c w →
          close_events (w_trace w) = Run_srv r mu :: cleanup r) ∧
  (ctx ∈ w_done (Group.g_world (Run_group r ctx mu sched world0)) →
   Group.g_status
     (watcher_steps r ctx mu (length (cleanup r) + 3) (Run_group r ctx mu sched world0))
     !! watcher_index r = Some (inr None)).
Proof.
  intros Hfresh. pose proof (Run_inv_sched r ctx mu sched Hfresh) as Hinv.
  destruct (Run_close_prefix r ctx mu _ Hinv) as (Hpre & Hdone & Hfull).
  assert (Hret : ∀ o, Group.returned (Run_group r ctx mu sched world0) = Some o →
            close_events (w_trace (Group.g_world (Run_group r ctx mu sched world0))) =
            Run_srv r mu :: cleanup r).
  { intros o Ho. eapply Hfull. by eapply Run_returned_watcher. }
  split_and!; try done.
  - intros w Hw. unfold Run in Hw.
    pose proof (finish_world r "sync" (Run_group r ctx mu sched world0)) as Hf.
    rewrite Hw in Hf. destruct Hf as [Ho ->]. by eapply Hret.
  - intros c w Hw. unfold Run in Hw.
    pose proof (finish_world r "sync" (Run_group r ctx mu sched world0)) as Hf.
    rewrite Hw in Hf. destruct Hf as (e & Ho & _ & ->).
    unfold close_events. rewrite omap_app. simpl. rewrite app_nil_r. by eapply Hret.
  - intros Hd. apply watcher_steps_done; [done..|]. by apply (watcher_fuel_le r ctx mu).
Qed.

Lemma Run_watcher_releases_in_order_witness :
  Group.actors (group ex_runner) = [] ∧
  ∃ w, Run ex_runner 5 9 ex_cancel_sched world0 = Returned w ∧
       close_events (w_trace w) =
       [HttpServer {| Addr := ":8080"; Handler_of := 9 |}; ex_c1; ex_c2].
Proof.
  split; [reflexivity|]. eexists. split; [reflexivity|].
  destruct (Run_watcher_releases_in_order ex_runner 5 9 ex_cancel_sched eq_refl)
    as (_ & _ & _ & _ & H & _).
  apply (H _ eq_refl).
Defined.

(** ** Testing mode *)

(** C7. For every fresh runner in testing mode and every schedule of
    [Run]: [startHttpServer] adds no listener actor and hands out the
    no-op closer, whose [Close] returns nil and closes nothing; the group
    is the watcher followed by one actor per background function; no
    address is ever bound; every background actor that has returned has
    called its function with the context of [Run] and returned nil; and
    the [Close] calls obey the same order as outside testing mode: always
    an initial part of "no-op closer, then the cleanups in registration
    order", complete once the group has returned, and completed by the
    watcher within [length cleanup + 3] of its steps once the context is
    cancelled. *)
Theorem Run_testing_mode (r : runner) (ctx : context) (mu : Handler) (sched : list item) :
  Group.actors (group r) = [] →
  forTesting r = true →
  startHttpServer r mu = (r, NopCloser) ∧
  (∀ w, (Close NopCloser w).1 = None ∧ w_closed (Close NopCloser w).2 = w_closed w) ∧
  Group.actors (group (Run_assemble r ctx mu)) =
    watcher_actor r ctx NopCloser :: ((fun fn => runFn_actor fn ctx) <$> runners r) ∧
  listen_events (w_trace (Group.g_world (Run_group r ctx mu sched world0))) = [] ∧
  (∀ k fn o, runners r !! k = Some fn →
             Group.g_status (Run_group r ctx mu sched world0) !! (1 + k) = Some (inr o) →
             o = None ∧
             (fn, ctx) ∈ call_events (w_trace (Group.g_world (Run_group r ctx mu sched world0)))) ∧
  close_events (w_trace (Group.g_world (Run_group r ctx mu sched world0)))
    `prefix_of` NopCloser :: cleanup r ∧
  (∀ o, Group.returned (Run_group r ctx mu sched world0) = Some o →
        close_events (w_trace (Group.g_world (Run_group r ctx mu sched world0))) =
        NopCloser :: cleanup r) ∧
  (ctx ∈ w_done (Group.g_world (Run_group r ctx mu sched world0)) →
   Group.g_status
     (watcher_steps r ctx mu (length (cleanup r) + 3) (Run_group r ctx mu sched world0))
     !! 0 = Some (inr None)).
Proof.
  intros Hfresh Hft. pose proof (Run_inv_sched r ctx mu sched Hfresh) as Hinv.
  destruct (Run_close_prefix r ctx mu _ Hinv) as (Hpre & Hdone & Hfull).
  assert (Hsrv : Run_srv r mu = NopCloser).
  { unfold Run_srv, startHttpServer. by rewrite Hft. }
  assert (Hwi : watcher_index r = 0).
  { unfold watcher_index. by rewrite Hft. }
  rewrite Hsrv, Hwi in *.
  split_and!.
  - unfold startHttpServer. by rewrite Hft.
  - done.
  - rewrite Run_actors, Hfresh, Hft, Hsrv. done.
  - by apply (ri_listen _ _ _ _ Hinv).
  - intros k fn o Hk Hs. pose proof (ri_runFn _ _ _ _ Hinv k fn Hk) as Hf.
    rewrite Hwi, Hs in Hf. done.
  - done.
  - intros o Ho. eapply Hfull.
    pose proof (Run_returned_watcher r ctx mu sched o Hfresh Ho) as Hw.
    rewrite Hwi in Hw. exact Hw.
  - intros Hd.
    pose proof (watcher_steps_done r ctx mu (length (cleanup r) + 3) _ Hfresh Hinv Hd
                  (watcher_fuel_le r ctx mu _ Hinv)) as Hw.
    by rewrite Hwi in Hw.
Qed.

Lemma Run_testing_mode_witness :
  Group.actors (group ex_testing_runner) = [] ∧
  forTesting ex_testing_runner = true ∧
  ∃ w, Run ex_testing_runner 5 9 ex_testing_sched world0 = Returned w ∧
       listen_events (w_trace w) = [] ∧
       close_events (w_trace w) = [NopCloser; ex_c1; ex_c2].
Proof.
  split; [reflexivity|]. split; [reflexivity|]. eexists. split; [reflexivity|].
  destruct (Run_testing_mode ex_testing_runner 5 9 ex_testing_sched eq_refl eq_refl)
    as (_ & _ & _ & HL & _ & _ & HC & _).
  split; [exact HL|exact (HC None eq_refl)].
Defined.

(** ** The listener *)

(** C4. When serving ends with error [e], the listener's [execute]
    returns nil exactly when [e] is the server-closed condition (which
    [http.ErrServerClosed] itself is); and whatever [ListenAndServe]
    returned, [execute] returns the failure [e] if and only if that is
    what [ListenAndServe] returned and [e] is not the server-closed
    condition. *)
Theorem http_execute_closed_is_success :
  errors_Is_ErrServerClosed ErrServerClosed = true ∧
  (∀ e, http_execute (Some e) = None ↔ errors_Is_ErrServerClosed e = true) ∧
  (∀ e, http_execute (Some e) = Some e ↔ errors_Is_ErrServerClosed e = false) ∧
  (∀ err e, http_execute err = Some e ↔
            err = Some e ∧ errors_Is_ErrServerClosed e = false).
Proof.
  unfold http_execute. split_and!.
  - done.
  - intros e. by destruct (errors_Is_ErrServerClosed e).
  - intros e. by destruct (errors_Is_ErrServerClosed e).
  - intros [e'|] e; [|split; [done|intros [? _]; done]].
    destruct (errors_Is_ErrServerClosed e') eqn:He; simpl; split.
    + done.
    + intros [[= ->] He']. congruence.
    + intros [= ->]. done.
    + intros [[= ->] _]. done.
Qed.

(** ** Background functions *)

(** C5. For every fresh runner and every schedule of [Run]: the actor at
    the position of the [k]-th background function wraps that function
    with the context of [Run]; every call of a background function is
    made with that context; an actor whose function has returned has
    called it and returns nil, whatever else happened; so when the first
    [execute] to return fails the runner is not in testing mode and the
    actor is the listener, and a failure returned by the group is the
    listener's.  For [Async], whose group holds background actors only,
    the group never returns a failure. *)
Theorem runFn_actor_returns_success (r : runner) (ctx : context) (mu : Handler)
    (sched : list item) :
  Group.actors (group r) = [] →
  (∀ k fn, runners r !! k = Some fn →
           Group.actors (group (Run_assemble r ctx mu)) !! (S (watcher_index r) + k) =
           Some (runFn_actor fn ctx) ∧
           ∀ o, Group.g_status (Run_group r ctx mu sched world0) !! (S (watcher_index r) + k)
                = Some (inr o) →
                o = None ∧
                (fn, ctx) ∈ call_events (w_trace (Group.g_world (Run_group r ctx mu sched world0)))) ∧
  (∀ fn w, runFn_step fn ctx BRunning Returns w = Some (w, inr None)) ∧
  (∀ fn c, (fn, c) ∈ call_events (w_trace (Group.g_world (Run_group r ctx mu sched world0))) →
           c = ctx ∧ fn ∈ runners r) ∧
  (∀ t e, Group.trigger (Run_group r ctx mu sched world0) = Some (t, Some e) →
          forTesting r = false ∧ t = 0) ∧
  (∀ e, Group.returned (Run_group r ctx mu sched world0) = Some (Some e) →
        forTesting r = false ∧
        Group.trigger (Run_group r ctx mu sched world0) = Some (0, Some e)) ∧
  (∀ o, Group.returned (Async_group r ctx sched world0) = Some o → o = None).
Proof.
  intros Hfresh. pose proof (Run_inv_sched r ctx mu sched Hfresh) as Hinv.
  assert (Hg : Group.inv (group (Run_assemble r ctx mu)) (Run_group r ctx mu sched world0))
    by apply GroupFacts.inv_run_sched.
  assert (Htrig : ∀ t e, Group.trigger (Run_group r ctx mu sched world0) = Some (t, Some e) →
                         forTesting r = false ∧ t = 0).
  { intros t e Ht. apply (trigger_status _ _ _ _ Hg) in Ht.
    destruct (Run_status_failure r ctx mu _ t e Hfresh Hg Hinv Ht) as (? & ? & _). done. }
  split_and!.
  - intros k fn Hk. split; [by apply Run_runFn_lookup|].
    intros o Hs. pose proof (ri_runFn _ _ _ _ Hinv k fn Hk) as Hf.
    rewrite Hs in Hf. done.
  - done.
  - apply (ri_calls _ _ _ _ Hinv).
  - done.
  - intros e He.
    destruct (GroupFacts.returned_trigger _ _ _ Hg He) as [[_ ?]|(t & Ht & _)]; [done|].
    destruct (Htrig t e Ht) as [Hft ->]. done.
  - intros o Ho.
    pose proof (Async_inv_sched r ctx sched Hfresh) as Hai.
    assert (Hga : Group.inv (group (Async_assemble r ctx)) (Async_group r ctx sched world0))
      by apply GroupFacts.inv_run_sched.
    destruct (GroupFacts.returned_trigger _ _ _ Hga Ho) as [[_ ?]|(t & Ht & _)]; [done|].
    apply (trigger_status _ _ _ _ Hga) in Ht.
    by eapply Async_status_success.
Qed.

Lemma runFn_actor_returns_success_witness :
  Group.actors (group ex_runner) = [] ∧
  Group.returned (Run_group ex_runner 5 9 ex_fail_sched world0) =
    Some (Some (ErrorString "address in use")) ∧
  Group.trigger (Run_group ex_runner 5 9 ex_fail_sched world0) =
    Some (0, Some (ErrorString "address in use")).
Proof.
  split; [reflexivity|]. split; [reflexivity|].
  destruct (runFn_actor_returns_success ex_runner 5 9 ex_fail_sched eq_refl)
    as (_ & _ & _ & _ & H & _).
  apply (H (ErrorString "address in use") eq_refl).
Defined.

(** ** The end of Run and Async *)

(** C6. For [Run] and for [Async], under every schedule: when the group
    returns a failure [e], the call ends in an exit with status 1, which
    is not zero, and the last two events are the error record "group
    runner failure" carrying [e] and then the exit; when the group
    returns nil the call returns to its caller with the world the group
    left; and on a fresh runner that world holds no exit and no "group
    runner failure" record. *)
Theorem Run_Async_exit_status (r : runner) (ctx : context) (mu : Handler)
    (sched : list item) :
  Group.actors (group r) = [] →
  (∀ e w0, Group.returned (Run_group r ctx mu sched w0) = Some (Some e) →
     ∃ w, Run r ctx mu sched w0 = Exited 1 w ∧ (1 ≠ 0)%Z ∧
          w_trace w = w_trace (Group.g_world (Run_group r ctx mu sched w0)) ++
            [EvLog (logger r) Error "group runner failure"
               [LStr "mode"; LStr "sync"; LStr "err"; LErr e];
             EvExit 1]) ∧
  (∀ e w0, Group.returned (Async_group r ctx sched w0) = Some (Some e) →
     ∃ w, Async r ctx sched w0 = Exited 1 w ∧ (1 ≠ 0)%Z ∧
          w_trace w = w_trace (Group.g_world (Async_group r ctx sched w0)) ++
            [EvLog (logger r) Error "group runner failure"
               [LStr "mode"; LStr "async"; LStr "err"; LErr e];
             EvExit 1]) ∧
  (∀ w0, Group.returned (Run_group r ctx mu sched w0) = Some None →
     Run r ctx mu sched w0 = Returned (Group.g_world (Run_group r ctx mu sched w0))) ∧
  (∀ w0, Group.returned (Async_group r ctx sched w0) = Some None →
     Async r ctx sched w0 = Returned (Group.g_world (Async_group r ctx sched w0))) ∧
  (∀ w, Run r ctx mu sched world0 = Returned w →
     exit_events (w_trace w) = [] ∧
     ∀ kv, ("group runner failure", kv) ∉ error_logs (w_trace w)) ∧
  (∀ w, Async r ctx sched world0 = Returned w →
     exit_events (w_trace w) = [] ∧
     ∀ kv, ("group runner failure", kv) ∉ error_logs (w_trace w)).
Proof.
  intros Hfresh. split_and!.
  - intros e w0 He. unfold Run, finish. rewrite He. eexists. split_and!; [done|done|].
    simpl. by rewrite <-app_assoc.
  - intros e w0 He. unfold Async, finish. rewrite He. eexists. split_and!; [done|done|].
    simpl. by rewrite <-app_assoc.
  - intros w0 Ho. unfold Run, finish. by rewrite Ho.
  - intros w0 Ho. unfold Async, finish. by rewrite Ho.
  - intros w Hw. unfold Run in Hw.
    pose proof (finish_world r "sync" (Run_group r ctx mu sched world0)) as Hf.
    rewrite Hw in Hf. destruct Hf as [_ ->].
    pose proof (Run_inv_sched r ctx mu sched Hfresh) as Hinv.
    split; [apply (ri_exit _ _ _ _ Hinv)|].
    intros kv Hin. by apply (ri_errlog _ _ _ _ Hinv) in Hin.
  - intros w Hw. unfold Async in Hw.
    pose proof (finish_world r "async" (Async_group r ctx sched world0)) as Hf.
    rewrite Hw in Hf. destruct Hf as [_ ->].
    pose proof (Async_inv_sched r ctx sched Hfresh) as Hinv.
    split; [apply (ai_exit _ _ _ Hinv)|].
    intros kv Hin. rewrite (ai_errlog _ _ _ Hinv) in Hin. by apply elem_of_nil in Hin.
Qed.

Lemma Run_Async_exit_status_witness :
  Group.actors (group ex_runner) = [] ∧
  ∃ w, Run ex_runner 5 9 ex_fail_sched world0 = Exited 1 w ∧
       exit_events (w_trace w) = [1%Z] ∧
       error_logs (w_trace w) =
       [("group runner failure",
         [LStr "mode"; LStr "sync"; LStr "err"; LErr (ErrorString "address in use")])].
Proof.
  split; [reflexivity|].
  destruct (Run_Async_exit_status ex_runner 5 9 ex_fail_sched eq_refl)
    as (H & _).
  destruct (H (ErrorString "address in use") world0 eq_refl) as (w & Hw & _ & Htr).
  exists w. split; [exact Hw|].
  unfold exit_events, error_logs. rewrite Htr. split; reflexivity.
Defined.

(** ** Async against Run *)

(** C3 fails on the sample service: the group of [Async] is not the group
    of [Run] without its first actor, the listener (it holds one actor,
    the other two); and there is a run of [Async] during which the
    context is cancelled and which returns without any [Close] call,
    although two cleanups are registered. *)
Lemma Async_is_not_Run_minus_listener :
  forTesting ex_runner = false ∧
  Group.actors (group (Async_assemble ex_runner 5)) ≠
    drop 1 (Group.actors (group (Run_assemble ex_runner 5 9))) ∧
  length (Group.actors (group (Async_assemble ex_runner 5))) = 1 ∧
  length (drop 1 (Group.actors (group (Run_assemble ex_runner 5 9)))) = 2 ∧
  cleanup ex_runner = [ex_c1; ex_c2] ∧
  ∃ w, Async ex_runner 5 ex_async_sched world0 = Returned w ∧
       5 ∈ w_done w ∧
       close_events (w_trace w) = [].
Proof.
  split_and!; try reflexivity.
  - intros H. apply (f_equal length) in H. discriminate H.
  - eexists. split_and!; [reflexivity| |reflexivity]. by left.
Qed.

(** C3, amended. For every fresh runner and every context, [Async]
    assembles exactly one actor per background function, in registration
    order, each calling its function with that context; the group of
    [Run] is the listener (outside testing mode), then the cancellation
    watcher, then those same actors.  So the group of [Async] is the
    group of [Run] without the listener and without the watcher. *)
Theorem Async_assembles_background_actors_only (r : runner) (ctx : context) (mu : Handler) :
  Group.actors (group r) = [] →
  Group.actors (group (Async_assemble r ctx)) =
    (fun fn => runFn_actor fn ctx) <$> runners r ∧
  Group.actors (group (Run_assemble r ctx mu)) =
    (if forTesting r then []
     else [http_actor r {| Addr := addr (serverConfig r); Handler_of := mu |}]) ++
    watcher_actor r ctx (Run_srv r mu) ::
    Group.actors (group (Async_assemble r ctx)) ∧
  Group.actors (group (Async_assemble r ctx)) =
    drop (S (watcher_index r)) (Group.actors (group (Run_assemble r ctx mu))).
Proof.
  intros Hfresh. rewrite Async_actors, Run_actors, Hfresh. unfold watcher_index.
  split_and!; [done|done|]. by destruct (forTesting r).
Qed.

Lemma Async_assembles_background_actors_only_witness :
  Group.actors (group ex_runner) = [] ∧
  Group.actors (group (Async_assemble ex_runner 5)) = [runFn_actor ex_fn 5].
Proof.
  split; [reflexivity|].
  destruct (Async_assembles_background_actors_only ex_runner 5 9 eq_refl) as (H & _).
  exact H.
Defined.

(** ** The constructors and the registration methods *)

(** C9. [New] turns testing mode on exactly when it is given one testing
    argument and that argument is true; so no argument, a single false
    and two or more arguments of any value leave it off.  [NewEnv] passes
    its testing arguments on to [New], so the same holds for the runner
    it returns; and the runner behind the pointer [New] returns is that
    runner. *)
Theorem New_testing_mode :
  (∀ cfg lg testing, forTesting (New cfg lg testing) = true ↔ testing = [true]) ∧
  (∀ cfg lg, forTesting (New cfg lg []) = false) ∧
  (∀ cfg lg, forTesting (New cfg lg [false]) = false) ∧
  (∀ cfg lg b1 b2 rest, forTesting (New cfg lg (b1 :: b2 :: rest)) = false) ∧
  (∀ parseInt environ lg testing r,
     NewEnv parseInt environ lg testing = Some r →
     (forTesting r = true ↔ testing = [true])) ∧
  (∀ cfg lg testing h,
     (Ptr.new_runner cfg lg testing h).2 !! (Ptr.new_runner cfg lg testing h).1 =
     Some (New cfg lg testing)).
Proof.
  assert (HNew : ∀ cfg lg testing, forTesting (New cfg lg testing) = true ↔ testing = [true]).
  { intros cfg lg testing. unfold New. simpl.
    destruct testing as [|b [|b' rest]]; simpl; [done| |done].
    destruct b; simpl; split; (done || intros [=]). }
  split_and!; try done.
  - intros parseInt environ lg testing r. unfold NewEnv.
    destruct (NewEnvConfig parseInt environ) as [cfg|]; simpl; [|done].
    intros [= <-]. apply HNew.
  - intros cfg lg testing h. unfold Ptr.new_runner. simpl. apply lookup_insert_eq.
Qed.

Lemma New_testing_mode_witness :
  NewEnv read_decimal (fun _ => None) 7 [true] =
    Some (New {| ServerName := "server"; HostName := ""; ServerPort := 8000 |} 7 [true]) ∧
  forTesting (New {| ServerName := "server"; HostName := ""; ServerPort := 8000 |} 7 [true])
    = true.
Proof.
  split; [reflexivity|].
  destruct New_testing_mode as (_ & _ & _ & _ & H & _).
  apply (H read_decimal (fun _ => None) 7 [true] _ eq_refl). reflexivity.
Defined.

(** C10. On a pointer that holds a runner, [AddRunner] returns that same
    pointer and leaves there a runner whose background functions are the
    old ones followed by the arguments and whose cleanups, configuration,
    logger, testing flag and group are unchanged; [OnClose] does the same
    with the cleanups and leaves the background functions unchanged; and
    neither touches any other runner. *)
Theorem AddRunner_OnClose_frame (p : nat) (h : gmap nat runner) (r : runner)
    (fns : list RunFn) (cs : list io_Closer) :
  h !! p = Some r →
  (∃ h' r',
     Ptr.call_AddRunner p fns h = Some (p, h') ∧ h' !! p = Some r' ∧
     runners r' = runners r ++ fns ∧ cleanup r' = cleanup r ∧
     serverConfig r' = serverConfig r ∧ logger r' = logger r ∧
     forTesting r' = forTesting r ∧ group r' = group r ∧
     ∀ q, q ≠ p → h' !! q = h !! q) ∧
  (∃ h' r',
     Ptr.call_OnClose p cs h = Some (p, h') ∧ h' !! p = Some r' ∧
     cleanup r' = cleanup r ++ cs ∧ runners r' = runners r ∧
     serverConfig r' = serverConfig r ∧ logger r' = logger r ∧
     forTesting r' = forTesting r ∧ group r' = group r ∧
     ∀ q, q ≠ p → h' !! q = h !! q).
Proof.
  intros Hp. unfold Ptr.call_AddRunner, Ptr.call_OnClose. rewrite Hp. simpl. split.
  - exists (<[p := AddRunner r fns]> h), (AddRunner r fns).
    split_and!; try done; [apply lookup_insert_eq|].
    intros q Hq. by apply lookup_insert_ne.
  - exists (<[p := OnClose r cs]> h), (OnClose r cs).
    split_and!; try done; [apply lookup_insert_eq|].
    intros q Hq. by apply lookup_insert_ne.
Qed.

Lemma AddRunner_OnClose_frame_witness :
  (Ptr.new_runner ex_config 7 [] ∅).2 !! 0 = Some (New ex_config 7 []) ∧
  ∃ h', Ptr.call_AddRunner 0 [ex_fn] (Ptr.new_runner ex_config 7 [] ∅).2 = Some (0, h').
Proof.
  assert (H0 : (Ptr.new_runner ex_config 7 [] ∅).2 !! 0 = Some (New ex_config 7 []))
    by reflexivity.
  split; [exact H0|].
  destruct (AddRunner_OnClose_frame 0 (Ptr.new_runner ex_config 7 [] ∅).2 (New ex_config 7 [])
              [ex_fn] [ex_c1] H0) as [(h' & r' & H & _) _].
  exists h'. exact H.
Defined.

End RunnerFacts.

(** * Facts about the configuration *)
Module ConfigFacts.
Import Config.

Lemma read_decimal_fmt_d (z : Z) : read_decimal (fmt_d z) = Some z.
Proof.
  unfold read_decimal, fmt_d. rewrite NilZero.isi.
  - simpl. by rewrite DecimalZ.of_to.
  - destruct z as [|q|q]; simpl; try done.
    intros [= H]. by apply (Unsigned.to_uint_nonnil q).
  - destruct z as [|q|q]; simpl; try done.
    intros [= H]. by apply (Unsigned.to_uint_nonnil q).
Qed.

(** C8. The address of every configuration is its host, a colon and its
    port in decimal (reading the port's rendering back gives the port);
    [NewConfig name p] has the empty host, so its address is a colon and
    [p] in decimal; the default tags of the port and of the host are 8000
    and the empty string, and a configuration read from an environment
    that sets none of the variables has name "server", the empty host,
    port 8000 and address ":8000". *)
Theorem addr_is_host_colon_port :
  (∀ c, addr c = Host c +:+ ":" +:+ fmt_d (Port c)) ∧
  (∀ z, read_decimal (fmt_d z) = Some z) ∧
  (∀ name p, Host (NewConfig name p) = "" ∧ Port (NewConfig name p) = p ∧
             addr (NewConfig name p) = ":" +:+ fmt_d p) ∧
  addr (NewConfig "svc" 8080) = ":8080" ∧
  (default_HostName = "" ∧ default_ServerPort = "8000") ∧
  (∀ parseInt environ,
     parseInt default_ServerPort = Some 8000%Z →
     (∀ k, k ∈ ["SERVER_NAME"; "SERVER_HOST"; "SERVER_PORT"; "NAME"; "HOST"; "PORT"] →
           environ k = None) →
     NewEnvConfig parseInt environ =
       Some {| ServerName := "server"; HostName := ""; ServerPort := 8000 |} ∧
     addr {| ServerName := "server"; HostName := ""; ServerPort := 8000 |} = ":8000").
Proof.
  split_and!; try done.
  - apply read_decimal_fmt_d.
  - intros parseInt environ Hparse Henv. split; [|done].
    unfold NewEnvConfig, lookup_field, env_key. simpl.
    rewrite !Henv by (rewrite !elem_of_cons; tauto). simpl.
    by rewrite Hparse.
Qed.

Lemma addr_is_host_colon_port_witness :
  read_decimal "8000" = Some 8000%Z ∧
  NewEnvConfig read_decimal (fun _ => None) =
    Some {| ServerName := "server"; HostName := ""; ServerPort := 8000 |}.
Proof.
  split; [reflexivity|].
  destruct addr_is_host_colon_port as (_ & _ & _ & _ & _ & H).
  apply (H read_decimal (fun _ => None) eq_refl). intros k _. reflexivity.
Defined.

End ConfigFacts.

(** * More about the configuration *)
Module ConfigExtra.
Import Config.

Lemma colon_free_uint (d : Decimal.uint) : colon_free (NilEmpty.string_of_uint d) = true.
Proof. induction d; simpl; auto. Qed.

Lemma colon_free_fmt_d (z : Z) : colon_free (fmt_d z) = true.
Proof.
  unfold fmt_d, NilZero.string_of_int, NilZero.string_of_uint.
  destruct (Z.to_int z) as [d|d]; destruct d; simpl; auto using colon_free_uint.
Qed.

Lemma append_nil (s : string) : "" +:+ s = s.
Proof. reflexivity. Qed.

Lemma append_cons (a : ascii) (s t : string) : String a s +:+ t = String a (s +:+ t).
Proof. reflexivity. Qed.

Lemma colon_free_app_colon (h d : string) : colon_free (h +:+ String ":" d) = false.
Proof.
  induction h as [|a h IH]; [done|].
  rewrite append_cons. simpl. rewrite IH. apply andb_false_r.
Qed.

(** A string splits in one way only into a host, a colon and a
    colon-free port. *)
Lemma split_host_port (h1 h2 d1 d2 : string) :
  colon_free d1 = true → colon_free d2 = true →
  h1 +:+ String ":" d1 = h2 +:+ String ":" d2 → h1 = h2 ∧ d1 = d2.
Proof.
  intros H1 H2. revert h2. induction h1 as [|a h1 IH]; intros [|b h2] Heq;
    rewrite ?append_nil, ?append_cons in Heq.
  - by injection Heq as ->.
  - injection Heq as _ Hd. subst d1. by rewrite colon_free_app_colon in H1.
  - injection Heq as _ Hd. subst d2. by rewrite colon_free_app_colon in H2.
  - injection Heq as -> Heq. destruct (IH h2 Heq) as [-> ->]. done.
Qed.

Lemma fmt_d_inj (p q : Z) : fmt_d p = fmt_d q → p = q.
Proof.
  intros Heq. pose proof (ConfigFacts.read_decimal_fmt_d p) as Hp.
  rewrite Heq, ConfigFacts.read_decimal_fmt_d in Hp. by injection Hp.
Qed.

(** X1. The address determines the host and the port: two configurations
    with the same address have the same host and the same port (their
    names may differ), whatever the host string holds. *)
Theorem addr_inj (c1 c2 : DefaultConfig) :
  addr c1 = addr c2 → Host c1 = Host c2 ∧ Port c1 = Port c2.
Proof.
  unfold addr, Host, Port. intros Heq.
  change (HostName c1 +:+ String ":" (fmt_d (ServerPort c1)) =
          HostName c2 +:+ String ":" (fmt_d (ServerPort c2))) in Heq.
  apply split_host_port in Heq as [Hh Hp]; [|apply colon_free_fmt_d..].
  split; [done|by apply fmt_d_inj].
Qed.

Lemma addr_inj_witness :
  addr (NewConfigWithHost "a" "[::1]" 80) = addr (NewConfigWithHost "b" "[::1]" 80) ∧
  Host (NewConfigWithHost "a" "[::1]" 80) = Host (NewConfigWithHost "b" "[::1]" 80) ∧
  Port (NewConfigWithHost "a" "[::1]" 80) = Port (NewConfigWithHost "b" "[::1]" 80).
Proof.
  split; [reflexivity|].
  apply (addr_inj (NewConfigWithHost "a" "[::1]" 80) (NewConfigWithHost "b" "[::1]" 80)).
  reflexivity.
Defined.

End ConfigExtra.

(** * More about the actor group *)
Module GroupExtra.
Section Facts.
Context {W PC I E : Type}.
Variable env_step : E -> W -> W.
Variable g : @Group.Group W PC I.
Import Group.

Local Abbreviation N := (length (actors g)).
Local Abbreviation gstate := (@Group.gstate W PC).
Local Abbreviation item := (@Group.item I E).

Lemma run_sched_app (s1 s2 : list item) (w : W) :
  run_sched env_step g (s1 ++ s2) w =
  foldl (sched_step env_step g) (run_sched env_step g s1 w) s2.
Proof. unfold run_sched. apply foldl_app. Qed.

Lemma inv_steps (st : gstate) (sched : list item) :
  inv g st → inv g (foldl (sched_step env_step g) st sched).
Proof.
  revert st. induction sched as [|it sched IH]; intros st Hinv; [done|].
  simpl. apply IH. by apply GroupFacts.inv_step.
Qed.

(** An [execute] that has returned stays returned, with the same value. *)
Lemma returned_stable_step (st : gstate) (it : item) (i : nat) (o : outcome) :
  g_status st !! i = Some (inr o) →
  g_status (sched_step env_step g st it) !! i = Some (inr o).
Proof.
  intros Hi. destruct it as [j inp| |e]; simpl.
  - destruct (GroupFacts.actor_step_cases g j inp st)
      as [->|(a & pc & w' & s & Ha & Hs & Hstep & ->)]; [done|].
    simpl. destruct (decide (j = i)) as [->|Hne]; [congruence|].
    by rewrite list_lookup_insert_ne.
  - destruct (GroupFacts.main_step_cases g st)
      as [[m ->]|(t & o' & j & a & _ & _ & _ & ->)]; done.
  - done.
Qed.

Lemma returned_stable (st : gstate) (sched : list item) (i : nat) (o : outcome) :
  g_status st !! i = Some (inr o) →
  g_status (foldl (sched_step env_step g) st sched) !! i = Some (inr o).
Proof.
  revert st. induction sched as [|it sched IH]; intros st Hi; [done|].
  simpl. apply IH. by apply returned_stable_step.
Qed.

Lemma n_returned_full (l : list (PC + outcome)) :
  (∀ i s, l !! i = Some s → ∃ o, s = inr o) → n_returned l = length l.
Proof.
  induction l as [|x l IH]; intros Hall; [done|].
  destruct (Hall 0 x eq_refl) as [o ->]. simpl. f_equal.
  apply IH. intros i s Hi. apply (Hall (S i) s Hi).
Qed.

(** Once every [execute] has returned, some actor is the trigger and
    [Run] returns its outcome after [N + 3] steps of its own. *)
Lemma all_returned_run_returns (st : gstate) :
  inv g st → actors g ≠ [] →
  (∀ i s, g_status st !! i = Some s → ∃ o, s = inr o) →
  ∃ t o, trigger st = Some (t, o) ∧
         returned (main_steps env_step g (N + 3) st) = Some o.
Proof.
  intros Hinv Hne Hall.
  assert (Hlen : length (g_returns st) = N).
  { rewrite (inv_cnt _ _ Hinv), n_returned_full by done. apply (inv_len _ _ Hinv). }
  destruct (g_returns st) as [|[t o] rs] eqn:Hrs.
  - simpl in Hlen. destruct (actors g); [done|simpl in Hlen; lia].
  - exists t, o. assert (Ht : trigger st = Some (t, o)) by (unfold trigger; by rewrite Hrs).
    split; [done|]. apply (GroupFacts.main_steps_returned env_step g st t o); [done|done|].
    by rewrite Hrs.
Qed.

End Facts.
End GroupExtra.

(** * More about the runner *)
Module RunnerExtra.
Import Config Runner RunnerFacts.

Local Abbreviation gstate := (@Group.gstate world pc).
Local Abbreviation item := (@Group.item input env).

(** ** Runners built through the interface *)

Lemma foldl_apply_call (calls : list call) (r : runner) :
  group (foldl apply_call r calls) = group r ∧
  runners (foldl apply_call r calls) = runners r ++ added_runners calls ∧
  cleanup (foldl apply_call r calls) = cleanup r ++ added_cleanups calls ∧
  serverConfig (foldl apply_call r calls) = serverConfig r ∧
  logger (foldl apply_call r calls) = logger r ∧
  forTesting (foldl apply_call r calls) = forTesting r.
Proof.
  revert r. induction calls as [|c calls IH]; intros r.
  - unfold added_runners, added_cleanups. simpl. by rewrite !app_nil_r.
  - simpl. destruct (IH (apply_call r c)) as (-> & -> & -> & -> & -> & ->).
    destruct c as [fns|cs]; simpl; unfold added_runners, added_cleanups; simpl;
      rewrite <-?app_assoc; done.
Qed.

(** X2. Whatever sequence of [AddRunner] and [OnClose] calls follows
    [New], the runner has an empty group (so it is fresh for [Run] and
    [Async]), its background functions are the arguments of the
    [AddRunner] calls in call order, its cleanups are the arguments of the
    [OnClose] calls in call order, and its configuration, logger and
    testing flag are those [New] set. *)
Theorem build_fresh (cfg : DefaultConfig) (lg : Logger) (testing : list bool)
    (calls : list call) :
  Group.actors (group (build cfg lg testing calls)) = [] ∧
  runners (build cfg lg testing calls) = added_runners calls ∧
  cleanup (build cfg lg testing calls) = added_cleanups calls ∧
  serverConfig (build cfg lg testing calls) = cfg ∧
  logger (build cfg lg testing calls) = lg ∧
  forTesting (build cfg lg testing calls) = forTesting (New cfg lg testing).
Proof.
  unfold build.
  destruct (foldl_apply_call calls (New cfg lg testing)) as (-> & -> & -> & -> & -> & ->).
  done.
Qed.

(** ** The shape of each actor's steps *)

Lemma http_step_shape (srv : Server) (p : pc) (inp : input) (w w' : world) (s : pc + outcome) :
  http_step srv p inp w = Some (w', s) →
  (w' = w ∧ ∃ o, s = inr o) ∨
  (w' = emit (EvListen (Addr srv)) w ∧ p = HStart ∧ s = inl HServing ∧ w_closed w = false).
Proof.
  unfold http_step. destruct p; try done; destruct (w_closed w) eqn:Hc;
    try destruct inp; intros ?; simplify_eq; eauto 6.
Qed.

Lemma watcher_step_shape (ctx : context) (srv : io_Closer) (cs : list io_Closer)
    (p : pc) (inp : input) (w w' : world) (s : pc + outcome) :
  watcher_step ctx srv cs p inp w = Some (w', s) →
  (w' = w ∧ p = WWait ∧ s = inl WClose) ∨
  (w' = w ∧ p = WCleanup [] ∧ s = inr None) ∨
  (w' = (Close srv w).2 ∧ p = WClose ∧ s = inl (WCleanup cs)) ∨
  (∃ c rest, w' = (Close c w).2 ∧ p = WCleanup (c :: rest) ∧ s = inl (WCleanup rest)).
Proof.
  unfold watcher_step. destruct p as [| | | |[|c rest]| |]; try done.
  - case_bool_decide; intros ?; simplify_eq. by left.
  - intros ?; simplify_eq. right. right. by left.
  - intros ?; simplify_eq. right. by left.
  - intros ?; simplify_eq. right. right. right. by exists c, rest.
Qed.

Lemma runFn_step_shape (fn : RunFn) (ctx : context)
    (p : pc) (inp : input) (w w' : world) (s : pc + outcome) :
  runFn_step fn ctx p inp w = Some (w', s) →
  (w' = emit (EvCall fn ctx) w ∧ p = BStart ∧ s = inl BRunning) ∨
  (w' = w ∧ p = BRunning ∧ inp = Returns ∧ s = inr None).
Proof.
  unfold runFn_step. destruct p; try done.
  - intros ?; simplify_eq. by left.
  - destruct inp; intros ?; simplify_eq. by right.
Qed.

Lemma Close_closed (c : io_Closer) (w : world) :
  (w_closed w = true → w_closed (Close c w).2 = true) ∧
  (∀ srv, c = HttpServer srv → w_closed (Close c w).2 = true) ∧
  (c = NopCloser → w_closed (Close c w).2 = w_closed w) ∧
  head (w_trace (Close c w).2) = head (w_trace w ++ [EvClose c]).
Proof. destruct c; simpl; split_and!; try done; intros srv' [= <-]; done. Qed.

(** ** The calls read off the statuses *)

Lemma called_insert_start (ctx : context) (fns : list RunFn) (ss : list (pc + outcome))
    (k : nat) (fn : RunFn) (s' : pc + outcome) :
  fns !! k = Some fn → ss !! k = Some (inl BStart) → started s' = true →
  called ctx fns (<[k := s']> ss) ≡ₚ (fn, ctx) :: called ctx fns ss.
Proof.
  revert ss k. induction fns as [|f fns IH]; intros [|s ss] k Hf Hs Hs'; try done.
  destruct k as [|k]; simpl in *.
  - simplify_eq. simpl. by rewrite Hs'.
  - rewrite (IH ss k Hf Hs Hs'). destruct (started s); simpl; [|done].
    apply Permutation_swap.
Qed.

Lemma called_insert_started (ctx : context) (fns : list RunFn) (ss : list (pc + outcome))
    (k : nat) (s s' : pc + outcome) :
  ss !! k = Some s → started s = true → started s' = true →
  called ctx fns (<[k := s']> ss) = called ctx fns ss.
Proof.
  revert ss k. induction fns as [|f fns IH]; intros [|s0 ss] k Hs Hst Hs'; try done.
  destruct k as [|k]; simpl in *.
  - simplify_eq. by rewrite Hst, Hs'.
  - by rewrite (IH ss k Hs Hst Hs').
Qed.

Lemma called_all (ctx : context) (fns : list RunFn) (ss : list (pc + outcome)) :
  length fns ≤ length ss →
  (∀ i s, ss !! i = Some s → started s = true) →
  called ctx fns ss = (fun fn => (fn, ctx)) <$> fns.
Proof.
  revert ss. induction fns as [|f fns IH]; intros [|s ss] Hlen Hall; simpl in *;
    try done; try lia.
  rewrite (Hall 0 s eq_refl). simpl. f_equal. apply IH; [lia|].
  intros i s' Hi. apply (Hall (S i) s' Hi).
Qed.

Lemma called_submseteq (ctx : context) (fns : list RunFn) (ss : list (pc + outcome)) :
  called ctx fns ss ⊆+ (fun fn => (fn, ctx)) <$> fns.
Proof.
  revert ss. induction fns as [|f fns IH]; intros [|s ss]; simpl; try done.
  - apply submseteq_nil_l.
  - destruct (started s); simpl.
    + by apply submseteq_skip.
    + by apply submseteq_cons.
Qed.

Lemma called_start (ctx : context) (fns : list RunFn) :
  called ctx fns ((fun a : actor => inl (Group.a_start a)) <$>
                    ((fun fn => runFn_actor fn ctx) <$> fns)) = [].
Proof. induction fns as [|f fns IH]; simpl; done. Qed.

(** ** The second invariant of [Run] *)

Lemma head_emit (e0 e : event) (w : world) :
  head (w_trace w) = Some e0 → head (w_trace (emit e w)) = Some e0.
Proof. intros H. simpl. by apply GroupFacts.head_snoc. Qed.

Lemma head_Close (e0 : event) (c : io_Closer) (w : world) :
  head (w_trace w) = Some e0 → head (w_trace (Close c w).2) = Some e0.
Proof.
  intros H. destruct (Close_closed c w) as (_ & _ & _ & ->).
  by apply GroupFacts.head_snoc.
Qed.

Lemma Run_inv2_start (r : runner) (ctx : context) (mu : Handler) :
  Group.actors (group r) = [] →
  Run_inv2 r ctx mu
    (Group.start (group (Run_assemble r ctx mu))
       (emit (EvLog (logger r) Debug "group runner start" (keyValues r)) world0)).
Proof.
  intros Hfresh. unfold Group.start. rewrite Run_actors, Hfresh.
  split; unfold watcher_index; destruct (forTesting r) eqn:Hft; simpl; try done.
  - by rewrite called_start.
  - by rewrite called_start.
Qed.

Lemma Run_inv2_step (r : runner) (ctx : context) (mu : Handler) (st : gstate) (it : item) :
  Group.actors (group r) = [] →
  Run_inv2 r ctx mu st →
  Run_inv2 r ctx mu (Group.sched_step env_step (group (Run_assemble r ctx mu)) st it).
Proof.
  intros Hfresh [Hhead Hclosed Hshut Hcalled].
  destruct it as [i inp| |e]; simpl.
  - destruct (GroupFacts.actor_step_cases (group (Run_assemble r ctx mu)) i inp st)
      as [->|(a & p & w' & s & Ha & Hs & Hstep & ->)]; [by split|].
    pose proof (lookup_lt_Some _ _ _ Hs) as Hlt.
    apply Run_actor_lookup in Ha as [(Hft & -> & ->)|[(-> & ->)|(k & fn & -> & Hk & ->)]];
      [| | |done].
    + simpl in Hstep.
      assert (Hwi : watcher_index r = 1) by (unfold watcher_index; by rewrite Hft).
      rewrite Hwi in *.
      apply http_step_shape in Hstep as [[-> _]|(-> & _ & _ & _)].
      * split; simpl; rewrite ?Hwi; try done.
        -- by rewrite list_lookup_insert_ne.
        -- by rewrite drop_insert_lt by lia.
      * split; simpl; rewrite ?Hwi.
        -- by apply GroupFacts.head_snoc.
        -- by rewrite close_events_snoc, app_nil_r.
        -- by rewrite list_lookup_insert_ne.
        -- by rewrite call_events_snoc, app_nil_r, drop_insert_lt by lia.
    + simpl in Hstep.
      destruct (Close_spec (Run_srv r mu) (Group.g_world st)) as (HCs & _ & _ & HKs & _).
      apply watcher_step_shape in Hstep
        as [(-> & -> & ->)|[(-> & -> & ->)|[(-> & -> & ->)|(c & rest & -> & -> & ->)]]].
      * split; simpl; try done.
        -- by rewrite list_lookup_insert_eq.
        -- by rewrite drop_insert_lt by lia.
      * split; simpl; try done.
        -- intros Hft _. apply Hshut; [done|]. by rewrite Hs.
        -- by rewrite drop_insert_lt by lia.
      * split; simpl.
        -- by apply head_Close.
        -- intros _. rewrite HCs. by destruct (close_events (w_trace (Group.g_world st))).
        -- intros Hft _. unfold Run_srv, startHttpServer. rewrite Hft. done.
        -- by rewrite HKs, drop_insert_lt by lia.
      * destruct (Close_spec c (Group.g_world st)) as (HCc & _ & _ & HKc & _).
        split; simpl.
        -- by apply head_Close.
        -- intros _. rewrite HCc. by destruct (close_events (w_trace (Group.g_world st))).
        -- intros Hft _. apply Close_closed. apply Hshut; [done|]. by rewrite Hs.
        -- by rewrite HKc, drop_insert_lt by lia.
    + simpl in Hstep.
      assert (Hdrop : ∀ s', drop (S (watcher_index r))
                (<[S (watcher_index r) + k := s']> (Group.g_status st)) =
              <[k := s']> (drop (S (watcher_index r)) (Group.g_status st))).
      { intros s'. rewrite drop_insert_ge by lia. f_equal. lia. }
      assert (Hsk : drop (S (watcher_index r)) (Group.g_status st) !! k = Some (inl p)).
      { by rewrite lookup_drop. }
      apply runFn_step_shape in Hstep as [(-> & -> & ->)|(-> & -> & -> & ->)].
      * split; simpl.
        -- by apply GroupFacts.head_snoc.
        -- by rewrite close_events_snoc, app_nil_r.
        -- rewrite list_lookup_insert_ne by lia. done.
        -- rewrite call_events_snoc, Hdrop.
           rewrite (called_insert_start ctx _ _ k fn) by done.
           rewrite Hcalled. symmetry. apply Permutation_cons_append.
      * split; simpl; try done.
        -- rewrite list_lookup_insert_ne by lia. done.
        -- rewrite Hdrop. by rewrite (called_insert_started ctx _ _ k (inl BRunning)).
  - destruct (GroupFacts.main_step_cases (group (Run_assemble r ctx mu)) st)
      as [[m ->]|(t & o & j & a & Hpc & Ha & Hne & ->)]; [by split|].
    apply Run_actor_lookup in Ha as [(Hft & -> & ->)|[(-> & ->)|(k & fn & -> & Hk & ->)]];
      [|by split|by split|done].
    simpl. unfold http_interrupt. destruct o as [e|]; [|by split].
    split; simpl; try done.
    + by apply GroupFacts.head_snoc.
    + by rewrite close_events_snoc, app_nil_r.
    + by rewrite call_events_snoc, app_nil_r.
  - destruct e as [c]. by split.
Qed.

Lemma Run_assemble_keyValues (r : runner) (ctx : context) (mu : Handler) :
  keyValues (Run_assemble r ctx mu) = keyValues r.
Proof. unfold keyValues. by destruct (Run_assemble_logger r ctx mu) as [_ ->]. Qed.

Lemma Run_inv2_steps (r : runner) (ctx : context) (mu : Handler) (st : gstate)
    (sched : list item) :
  Group.actors (group r) = [] →
  Run_inv2 r ctx mu st →
  Run_inv2 r ctx mu
    (foldl (Group.sched_step env_step (group (Run_assemble r ctx mu))) st sched).
Proof.
  intros Hfresh. revert st. induction sched as [|it sched IH]; intros st Hinv; [done|].
  simpl. apply IH. by apply Run_inv2_step.
Qed.

Lemma Run_inv_steps (r : runner) (ctx : context) (mu : Handler) (st : gstate)
    (sched : list item) :
  Group.actors (group r) = [] →
  Run_inv r ctx mu st →
  Run_inv r ctx mu
    (foldl (Group.sched_step env_step (group (Run_assemble r ctx mu))) st sched).
Proof.
  intros Hfresh. revert st. induction sched as [|it sched IH]; intros st Hinv; [done|].
  simpl. apply IH. by apply Run_inv_step.
Qed.

Lemma Run_inv2_sched (r : runner) (ctx : context) (mu : Handler) (sched : list item) :
  Group.actors (group r) = [] →
  Run_inv2 r ctx mu (Run_group r ctx mu sched world0).
Proof.
  intros Hfresh. unfold Run_group.
  destruct (Run_assemble_logger r ctx mu) as [-> _]. rewrite Run_assemble_keyValues.
  apply Run_inv2_steps; [done|]. by apply Run_inv2_start.
Qed.

(** ** The second invariant of [Async] *)

Lemma Async_inv2_start (r : runner) (ctx : context) :
  Group.actors (group r) = [] →
  Async_inv2 r ctx
    (Group.start (group (Async_assemble r ctx))
       (emit (EvLog (logger r) Debug "async runner started" (keyValues r)) world0)).
Proof.
  intros Hfresh. unfold Group.start. rewrite Async_actors, Hfresh.
  split; simpl; try done. by rewrite called_start.
Qed.

Lemma Async_inv2_step (r : runner) (ctx : context) (st : gstate) (it : item) :
  Group.actors (group r) = [] →
  Async_inv2 r ctx st →
  Async_inv2 r ctx (Group.sched_step env_step (group (Async_assemble r ctx)) st it).
Proof.
  intros Hfresh [Hhead Hclosed Hcalled].
  destruct it as [i inp| |e]; simpl.
  - destruct (GroupFacts.actor_step_cases (group (Async_assemble r ctx)) i inp st)
      as [->|(a & p & w' & s & Ha & Hs & Hstep & ->)]; [by split|].
    apply Async_actor_lookup in Ha as (fn & Hk & ->); [|done].
    simpl in Hstep.
    apply runFn_step_shape in Hstep as [(-> & -> & ->)|(-> & -> & -> & ->)].
    + split; simpl; [by apply GroupFacts.head_snoc|done|].
      rewrite call_events_snoc, (called_insert_start ctx _ _ i fn) by done.
      rewrite Hcalled. symmetry. apply Permutation_cons_append.
    + split; simpl; try done.
      by rewrite (called_insert_started ctx _ _ i (inl BRunning)).
  - destruct (GroupFacts.main_step_cases (group (Async_assemble r ctx)) st)
      as [[m ->]|(t & o & j & a & Hpc & Ha & Hne & ->)]; [by split|].
    apply Async_actor_lookup in Ha as (fn & Hk & ->); [|done]. by split.
  - destruct e as [c]. by split.
Qed.

Lemma Async_inv2_steps (r : runner) (ctx : context) (st : gstate) (sched : list item) :
  Group.actors (group r) = [] →
  Async_inv2 r ctx st →
  Async_inv2 r ctx
    (foldl (Group.sched_step env_step (group (Async_assemble r ctx))) st sched).
Proof.
  intros Hfresh. revert st. induction sched as [|it sched IH]; intros st Hinv; [done|].
  simpl. apply IH. by apply Async_inv2_step.
Qed.

Lemma Async_inv_steps (r : runner) (ctx : context) (st : gstate) (sched : list item) :
  Group.actors (group r) = [] →
  Async_inv r ctx st →
  Async_inv r ctx
    (foldl (Group.sched_step env_step (group (Async_assemble r ctx))) st sched).
Proof.
  intros Hfresh. revert st. induction sched as [|it sched IH]; intros st Hinv; [done|].
  simpl. apply IH. by apply Async_inv_step.
Qed.

Lemma Async_assemble_keyValues (r : runner) (ctx : context) :
  keyValues (Async_assemble r ctx) = keyValues r.
Proof. unfold keyValues. by destruct (Async_assemble_logger r ctx) as [_ ->]. Qed.

Lemma Async_inv2_sched (r : runner) (ctx : context) (sched : list item) :
  Group.actors (group r) = [] →
  Async_inv2 r ctx (Async_group r ctx sched world0).
Proof.
  intros Hfresh. unfold Async_group.
  destruct (Async_assemble_logger r ctx) as [-> _]. rewrite Async_assemble_keyValues.
  apply Async_inv2_steps; [done|]. by apply Async_inv2_start.
Qed.

Lemma Run_actors_length (r : runner) (ctx : context) (mu : Handler) :
  Group.actors (group r) = [] →
  length (Group.actors (group (Run_assemble r ctx mu))) =
  S (watcher_index r) + length (runners r).
Proof.
  intros Hfresh. rewrite Run_actors, Hfresh. unfold watcher_index.
  destruct (forTesting r); simpl; by rewrite length_fmap.
Qed.

Lemma Async_actors_length (r : runner) (ctx : context) :
  Group.actors (group r) = [] →
  length (Group.actors (group (Async_assemble r ctx))) = length (runners r).
Proof. intros Hfresh. rewrite Async_actors, Hfresh. simpl. by rewrite length_fmap. Qed.

Lemma Run_group_inv (r : runner) (ctx : context) (mu : Handler) (sched : list item) :
  Group.inv (group (Run_assemble r ctx mu)) (Run_group r ctx mu sched world0).
Proof. apply GroupFacts.inv_run_sched. Qed.

Lemma Async_group_inv (r : runner) (ctx : context) (sched : list item) :
  Group.inv (group (Async_assemble r ctx)) (Async_group r ctx sched world0).
Proof. apply GroupFacts.inv_run_sched. Qed.

(** ** What a run never does before cancellation *)

(** X3. [Run] comes back only after the context has been cancelled: on a
    fresh runner, under every schedule, when the group has returned, and
    so when [Run] has returned to its caller or has exited the process,
    the context is cancelled.  In particular a listener that fails to
    bind, or a background function that returns, does not end [Run] by
    itself. *)
Theorem Run_ends_only_after_cancel (r : runner) (ctx : context) (mu : Handler)
    (sched : list item) :
  Group.actors (group r) = [] →
  (∀ o, Group.returned (Run_group r ctx mu sched world0) = Some o →
        ctx ∈ w_done (Group.g_world (Run_group r ctx mu sched world0))) ∧
  (∀ w, Run r ctx mu sched world0 = Returned w → ctx ∈ w_done w) ∧
  (∀ c w, Run r ctx mu sched world0 = Exited c w → ctx ∈ w_done w).
Proof.
  intros Hfresh. pose proof (Run_inv_sched r ctx mu sched Hfresh) as Hinv.
  assert (Hret : ∀ o, Group.returned (Run_group r ctx mu sched world0) = Some o →
            ctx ∈ w_done (Group.g_world (Run_group r ctx mu sched world0))).
  { intros o Ho. pose proof (Run_returned_watcher r ctx mu sched o Hfresh Ho) as Hw.
    pose proof (ri_watcher _ _ _ _ Hinv) as Hwi. rewrite Hw in Hwi. by destruct Hwi as (_ & ? & _). }
  split_and!; [done| |].
  - intros w Hw. unfold Run, finish in Hw.
    destruct (Group.returned (Run_group r ctx mu sched world0)) as [[e|]|] eqn:Ho;
      simplify_eq. by eapply Hret.
  - intros c w Hw. unfold Run, finish in Hw.
    destruct (Group.returned (Run_group r ctx mu sched world0)) as [[e|]|] eqn:Ho;
      simplify_eq. simpl. by eapply Hret.
Qed.

Lemma Run_ends_only_after_cancel_witness :
  Group.actors (group ex_runner) = [] ∧
  Group.returned (Run_group ex_runner 5 9 ex_fail_sched world0) =
    Some (Some (ErrorString "address in use")) ∧
  5 ∈ w_done (Group.g_world (Run_group ex_runner 5 9 ex_fail_sched world0)).
Proof.
  assert (H0 : Group.returned (Run_group ex_runner 5 9 ex_fail_sched world0) =
               Some (Some (ErrorString "address in use"))) by (vm_compute; reflexivity).
  split; [reflexivity|]. split; [exact H0|].
  destruct (Run_ends_only_after_cancel ex_runner 5 9 ex_fail_sched eq_refl) as (H & _).
  apply (H _ H0).
Defined.

(** X4. The HTTP server is closed by the watcher only: on a fresh runner,
    under every schedule, when the server is closed the first [Close] call
    made was the watcher's on the listener's closer and the context is
    cancelled.  No interrupt and no returning background function closes
    the server. *)
Theorem server_closed_only_by_watcher (r : runner) (ctx : context) (mu : Handler)
    (sched : list item) :
  Group.actors (group r) = [] →
  w_closed (Group.g_world (Run_group r ctx mu sched world0)) = true →
  ctx ∈ w_done (Group.g_world (Run_group r ctx mu sched world0)) ∧
  head (close_events (w_trace (Group.g_world (Run_group r ctx mu sched world0)))) =
    Some (Run_srv r mu).
Proof.
  intros Hfresh Hc. pose proof (Run_inv_sched r ctx mu sched Hfresh) as Hinv.
  pose proof (r2_closed _ _ _ _ (Run_inv2_sched r ctx mu sched Hfresh) Hc) as Hne.
  destruct (Run_close_prefix r ctx mu _ Hinv) as ([k Hpre] & Hdone & _).
  split; [by apply Hdone|].
  destruct (close_events (w_trace (Group.g_world (Run_group r ctx mu sched world0))));
    [done|]. by injection Hpre as <- _.
Qed.

Lemma server_closed_only_by_watcher_witness :
  Group.actors (group ex_runner) = [] ∧
  w_closed (Group.g_world (Run_group ex_runner 5 9 ex_cancel_sched world0)) = true ∧
  5 ∈ w_done (Group.g_world (Run_group ex_runner 5 9 ex_cancel_sched world0)).
Proof.
  assert (H0 : w_closed (Group.g_world (Run_group ex_runner 5 9 ex_cancel_sched world0))
               = true) by (vm_compute; reflexivity).
  split; [reflexivity|]. split; [exact H0|].
  destruct (server_closed_only_by_watcher ex_runner 5 9 ex_cancel_sched eq_refl H0)
    as [H _].
  exact H.
Defined.

(** ** What the listener binds *)

(** X5. Outside testing mode [startHttpServer] registers the listener
    for the server [c.Server(mu)] describes and hands that server to the
    watcher; and under every schedule of [Run] on a fresh runner at most
    one address is ever bound, the address of that server, which is the
    host, a colon and the port of the configuration. *)
Theorem Run_binds_configured_address (r : runner) (ctx : context) (mu : Handler)
    (sched : list item) :
  Group.actors (group r) = [] →
  forTesting r = false →
  startHttpServer r mu =
    (runner_Add r (http_actor r (DefaultConfig_Server (serverConfig r) mu)),
     HttpServer (DefaultConfig_Server (serverConfig r) mu)) ∧
  Addr (DefaultConfig_Server (serverConfig r) mu) =
    Host (serverConfig r) +:+ ":" +:+ fmt_d (Port (serverConfig r)) ∧
  (listen_events (w_trace (Group.g_world (Run_group r ctx mu sched world0))) = [] ∨
   listen_events (w_trace (Group.g_world (Run_group r ctx mu sched world0))) =
     [Addr (DefaultConfig_Server (serverConfig r) mu)]).
Proof.
  intros Hfresh Hft. split_and!.
  - unfold startHttpServer. by rewrite Hft.
  - done.
  - pose proof (ri_http _ _ _ _ (Run_inv_sched r ctx mu sched Hfresh) Hft) as Hh.
    unfold http_inv in Hh. simpl.
    destruct (Group.g_status (Run_group r ctx mu sched world0) !! 0) as [[p|o]|]; [| |done].
    + destruct p; try done; auto.
    + by destruct Hh as [? _].
Qed.

Lemma Run_binds_configured_address_witness :
  Group.actors (group ex_runner) = [] ∧ forTesting ex_runner = false ∧
  (listen_events (w_trace (Group.g_world (Run_group ex_runner 5 9 ex_cancel_sched world0)))
     = [] ∨
   listen_events (w_trace (Group.g_world (Run_group ex_runner 5 9 ex_cancel_sched world0)))
     = [Addr (DefaultConfig_Server (serverConfig ex_runner) 9)]).
Proof.
  split; [reflexivity|]. split; [reflexivity|].
  destruct (Run_binds_configured_address ex_runner 5 9 ex_cancel_sched eq_refl eq_refl)
    as (_ & _ & H).
  exact H.
Defined.

(** ** When Run exits the process *)

(** X6. [Run] exits the process only for a failure of the listener: on a
    fresh runner, under every schedule, when [Run] has exited the status
    is 1, the runner is not in testing mode, the first [execute] to
    return was the listener's, its error is not the server-closed
    condition, and that error is the one in the last error record.  So in
    testing mode [Run] never exits the process, and closing the server is
    never reported as a failure. *)
Theorem Run_exits_only_for_listener_failure (r : runner) (ctx : context) (mu : Handler)
    (sched : list item) (c : Z) (w : world) :
  Group.actors (group r) = [] →
  Run r ctx mu sched world0 = Exited c w →
  c = 1%Z ∧ forTesting r = false ∧
  ∃ e, Group.trigger (Run_group r ctx mu sched world0) = Some (0, Some e) ∧
       errors_Is_ErrServerClosed e = false ∧
       last (error_logs (w_trace w)) =
         Some ("group runner failure", [LStr "mode"; LStr "sync"; LStr "err"; LErr e]).
Proof.
  intros Hfresh Hw. unfold Run in Hw.
  pose proof (finish_world r "sync" (Run_group r ctx mu sched world0)) as Hf.
  rewrite Hw in Hf. destruct Hf as (e & Ho & -> & Htr).
  pose proof (Run_inv_sched r ctx mu sched Hfresh) as Hinv.
  pose proof (Run_group_inv r ctx mu sched) as Hg.
  destruct (GroupFacts.returned_trigger _ _ _ Hg Ho) as [[_ ?]|(t & Ht & _)]; [done|].
  pose proof (trigger_status _ _ _ _ Hg Ht) as Hs.
  destruct (Run_status_failure r ctx mu _ t e Hfresh Hg Hinv Hs) as (Hft & -> & He).
  split_and!; [done|done|]. exists e. split_and!; [done|done|].
  rewrite Htr. unfold error_logs.
  rewrite (omap_app _ _ [_; _]). simpl. by rewrite last_snoc.
Qed.

Lemma Run_exits_only_for_listener_failure_witness :
  Group.actors (group ex_runner) = [] ∧
  Run ex_runner 5 9 ex_fail_sched world0 =
    Exited 1
      (emit (EvExit 1)
         (emit (EvLog 7 Error "group runner failure"
                  [LStr "mode"; LStr "sync"; LStr "err"; LErr (ErrorString "address in use")])
            (Group.g_world (Run_group ex_runner 5 9 ex_fail_sched world0)))) ∧
  forTesting ex_runner = false.
Proof.
  assert (H0 : Run ex_runner 5 9 ex_fail_sched world0 =
    Exited 1
      (emit (EvExit 1)
         (emit (EvLog 7 Error "group runner failure"
                  [LStr "mode"; LStr "sync"; LStr "err"; LErr (ErrorString "address in use")])
            (Group.g_world (Run_group ex_runner 5 9 ex_fail_sched world0)))))
    by (vm_compute; reflexivity).
  split; [reflexivity|]. split; [exact H0|].
  destruct (Run_exits_only_for_listener_failure ex_runner 5 9 ex_fail_sched _ _
              eq_refl H0) as (_ & H & _).
  exact H.
Defined.

(** ** How often the background functions are called *)

(** X7. On a fresh runner, under every schedule of [Run], the calls of
    background functions made so far are, up to order, part of "each
    registered function once per registration, with the context of
    [Run]"; and when the group has returned they are, up to order,
    exactly that: every registered function has been called exactly as
    often as it was registered. *)
Theorem Run_calls_each_function_once (r : runner) (ctx : context) (mu : Handler)
    (sched : list item) :
  Group.actors (group r) = [] →
  call_events (w_trace (Group.g_world (Run_group r ctx mu sched world0)))
    ⊆+ (fun fn => (fn, ctx)) <$> runners r ∧
  (∀ o, Group.returned (Run_group r ctx mu sched world0) = Some o →
        call_events (w_trace (Group.g_world (Run_group r ctx mu sched world0)))
          ≡ₚ (fun fn => (fn, ctx)) <$> runners r).
Proof.
  intros Hfresh.
  pose proof (r2_called _ _ _ _ (Run_inv2_sched r ctx mu sched Hfresh)) as Hc.
  split.
  - rewrite Hc. apply called_submseteq.
  - intros o Ho. rewrite Hc. rewrite called_all; [done| |].
    + rewrite length_drop, (Group.inv_len _ _ (Run_group_inv r ctx mu sched)).
      rewrite Run_actors_length by done. lia.
    + intros i s Hi. rewrite lookup_drop in Hi.
      destruct (GroupFacts.returned_all_returned _ _ o (Run_group_inv r ctx mu sched)
                  Ho _ _ Hi) as [o' ->]. done.
Qed.

Lemma Run_calls_each_function_once_witness :
  Group.actors (group ex_runner) = [] ∧
  Group.returned (Run_group ex_runner 5 9 ex_cancel_sched world0) = Some None ∧
  call_events (w_trace (Group.g_world (Run_group ex_runner 5 9 ex_cancel_sched world0)))
    ≡ₚ (fun fn => (fn, 5)) <$> runners ex_runner.
Proof.
  assert (H0 : Group.returned (Run_group ex_runner 5 9 ex_cancel_sched world0) = Some None)
    by (vm_compute; reflexivity).
  split; [reflexivity|]. split; [exact H0|].
  destruct (Run_calls_each_function_once ex_runner 5 9 ex_cancel_sched eq_refl) as [_ H].
  apply (H None H0).
Defined.

(** ** What Async does and does not do *)

(** X8. On a fresh runner, under every schedule of [Async]: the first
    event is the debug record "async runner started", which carries
    TESTING-MODE ON exactly in testing mode; the only other events are
    calls of registered background functions with the context of
    [Async], each at most once per registration and, once the group has
    returned, exactly once per registration; no address is bound, no
    [Close] call is made, the server state is untouched, no error is
    logged and the process is never exited. *)
Theorem Async_only_calls_functions (r : runner) (ctx : context) (sched : list item) :
  Group.actors (group r) = [] →
  head (w_trace (Group.g_world (Async_group r ctx sched world0))) =
    Some (EvLog (logger r) Debug "async runner started"
            (if forTesting r then [LStr "TESTING-MODE"; LStr "ON"] else [])) ∧
  call_events (w_trace (Group.g_world (Async_group r ctx sched world0)))
    ⊆+ (fun fn => (fn, ctx)) <$> runners r ∧
  (∀ o, Group.returned (Async_group r ctx sched world0) = Some o →
        call_events (w_trace (Group.g_world (Async_group r ctx sched world0)))
          ≡ₚ (fun fn => (fn, ctx)) <$> runners r) ∧
  listen_events (w_trace (Group.g_world (Async_group r ctx sched world0))) = [] ∧
  close_events (w_trace (Group.g_world (Async_group r ctx sched world0))) = [] ∧
  w_closed (Group.g_world (Async_group r ctx sched world0)) = false ∧
  error_logs (w_trace (Group.g_world (Async_group r ctx sched world0))) = [] ∧
  (∀ c w, Async r ctx sched world0 ≠ Exited c w).
Proof.
  intros Hfresh.
  pose proof (Async_inv_sched r ctx sched Hfresh) as Hinv.
  pose proof (Async_inv2_sched r ctx sched Hfresh) as Hinv2.
  pose proof (Async_group_inv r ctx sched) as Hg.
  pose proof (a2_called _ _ _ Hinv2) as Hc.
  split_and!.
  - apply (a2_head _ _ _ Hinv2).
  - rewrite Hc. apply called_submseteq.
  - intros o Ho. rewrite Hc. rewrite called_all; [done| |].
    + rewrite (Group.inv_len _ _ Hg), Async_actors_length by done. lia.
    + intros i s Hi.
      destruct (GroupFacts.returned_all_returned _ _ o Hg Ho _ _ Hi) as [o' ->]. done.
  - apply (ai_listen _ _ _ Hinv).
  - apply (ai_close _ _ _ Hinv).
  - apply (a2_closed _ _ _ Hinv2).
  - apply (ai_errlog _ _ _ Hinv).
  - intros c w Hw. unfold Async in Hw.
    pose proof (finish_world r "async" (Async_group r ctx sched world0)) as Hf.
    rewrite Hw in Hf. destruct Hf as (e & Ho & _).
    destruct (GroupFacts.returned_trigger _ _ _ Hg Ho) as [[_ ?]|(t & Ht & _)]; [done|].
    pose proof (trigger_status _ _ _ _ Hg Ht) as Hs.
    by pose proof (Async_status_success r ctx _ t _ Hfresh Hg Hinv Hs).
Qed.

Lemma Async_only_calls_functions_witness :
  Group.actors (group ex_runner) = [] ∧
  Group.returned (Async_group ex_runner 5 ex_async_sched world0) = Some None ∧
  close_events (w_trace (Group.g_world (Async_group ex_runner 5 ex_async_sched world0))) = [] ∧
  call_events (w_trace (Group.g_world (Async_group ex_runner 5 ex_async_sched world0)))
    ≡ₚ (fun fn => (fn, 5)) <$> runners ex_runner.
Proof.
  assert (H0 : Group.returned (Async_group ex_runner 5 ex_async_sched world0) = Some None)
    by (vm_compute; reflexivity).
  split; [reflexivity|]. split; [exact H0|].
  destruct (Async_only_calls_functions ex_runner 5 ex_async_sched eq_refl)
    as (_ & _ & H & _ & HC & _).
  split; [exact HC|apply (H None H0)].
Defined.

(** ** The first record of a run *)

(** X10. On a fresh runner, under every schedule, the first event of
    [Run] is the debug record "group runner start", before anything is
    bound, called or closed; it carries TESTING-MODE ON exactly in testing
    mode; and it is still the first event of the world [Run] returns or
    exits with. *)
Theorem Run_logs_start_first (r : runner) (ctx : context) (mu : Handler)
    (sched : list item) :
  Group.actors (group r) = [] →
  head (w_trace (Group.g_world (Run_group r ctx mu sched world0))) =
    Some (EvLog (logger r) Debug "group runner start"
            (if forTesting r then [LStr "TESTING-MODE"; LStr "ON"] else [])) ∧
  (∀ w, Run r ctx mu sched world0 = Returned w →
        head (w_trace w) =
        Some (EvLog (logger r) Debug "group runner start"
                (if forTesting r then [LStr "TESTING-MODE"; LStr "ON"] else []))) ∧
  (∀ c w, Run r ctx mu sched world0 = Exited c w →
          head (w_trace w) =
          Some (EvLog (logger r) Debug "group runner start"
                  (if forTesting r then [LStr "TESTING-MODE"; LStr "ON"] else []))).
Proof.
  intros Hfresh.
  pose proof (r2_head _ _ _ _ (Run_inv2_sched r ctx mu sched Hfresh)) as Hh.
  split_and!; [done| |].
  - intros w Hw. unfold Run in Hw.
    pose proof (finish_world r "sync" (Run_group r ctx mu sched world0)) as Hf.
    rewrite Hw in Hf. by destruct Hf as [_ ->].
  - intros c w Hw. unfold Run in Hw.
    pose proof (finish_world r "sync" (Run_group r ctx mu sched world0)) as Hf.
    rewrite Hw in Hf. destruct Hf as (e & _ & _ & ->). by apply GroupFacts.head_snoc.
Qed.

Lemma Run_logs_start_first_witness :
  Group.actors (group ex_testing_runner) = [] ∧
  head (w_trace (Group.g_world (Run_group ex_testing_runner 5 9 ex_testing_sched world0))) =
    Some (EvLog (logger ex_testing_runner) Debug "group runner start"
            (if forTesting ex_testing_runner then [LStr "TESTING-MODE"; LStr "ON"] else [])).
Proof.
  split; [reflexivity|].
  destruct (Run_logs_start_first ex_testing_runner 5 9 ex_testing_sched eq_refl) as [H _].
  exact H.
Defined.

(** ** Runs come to an end *)

Lemma finish_runFn_returns (g : Group) (st : gstate) (i : nat) (fn : RunFn) (ctx : context) :
  Group.actors g !! i = Some (runFn_actor fn ctx) →
  runFn_inv fn ctx (Group.g_status st !! i) (Group.g_world st) →
  Group.g_status (foldl (Group.sched_step env_step g) st (finish_runFn i)) !! i =
  Some (inr None).
Proof.
  intros Ha Hinv. unfold finish_runFn, runFn_inv in *. simpl. unfold Group.actor_step.
  rewrite Ha.
  destruct (Group.g_status st !! i) as [[p|o]|] eqn:Hs; [| |done].
  - pose proof (lookup_lt_Some _ _ _ Hs) as Hlt.
    destruct p; try done; simpl.
    + rewrite list_lookup_insert_eq by done. simpl.
      rewrite list_lookup_insert_eq; [done|]. by rewrite length_insert.
    + rewrite Hs. simpl. by rewrite list_lookup_insert_eq.
  - destruct Hinv as [-> _]. simpl. by rewrite Hs.
Qed.

Lemma http_notices_close (r : runner) (ctx : context) (mu : Handler) (st : gstate) :
  Group.actors (group r) = [] →
  forTesting r = false →
  Run_inv r ctx mu st →
  w_closed (Group.g_world st) = true →
  ∃ o, Group.g_status
         (Group.sched_step env_step (group (Run_assemble r ctx mu)) st (Group.SActor 0 Quiet))
         !! 0 = Some (inr o).
Proof.
  intros Hfresh Hft Hinv Hc. pose proof (ri_http _ _ _ _ Hinv Hft) as Hh.
  simpl. unfold Group.actor_step. rewrite Run_actors, Hfresh, Hft. simpl.
  unfold http_inv in Hh.
  destruct (Group.g_status st !! 0) as [[p|o]|] eqn:Hs; [| |done].
  - pose proof (lookup_lt_Some _ _ _ Hs) as Hlt.
    destruct p; try done; simpl; rewrite Hc; simpl;
      rewrite list_lookup_insert_eq by done; by eexists.
  - rewrite Hs. by eexists.
Qed.

Lemma finish_runFns_return (r : runner) (ctx : context) (mu : Handler) (ks : list nat)
    (st : gstate) :
  Group.actors (group r) = [] →
  Run_inv r ctx mu st →
  (∀ k, k ∈ ks → k < length (runners r)) →
  ∀ k, k ∈ ks →
       ∃ o, Group.g_status
              (foldl (Group.sched_step env_step (group (Run_assemble r ctx mu))) st
                 (flat_map (fun k => finish_runFn (S (watcher_index r) + k)) ks))
              !! (S (watcher_index r) + k) = Some (inr o).
Proof.
  intros Hfresh. revert st. induction ks as [|k0 ks IH]; intros st Hinv Hlt k Hk.
  - by apply elem_of_nil in Hk.
  - change (flat_map (fun k => finish_runFn (S (watcher_index r) + k)) (k0 :: ks))
      with (finish_runFn (S (watcher_index r) + k0) ++
            flat_map (fun k => finish_runFn (S (watcher_index r) + k)) ks).
    rewrite foldl_app.
    assert (Hinv' : Run_inv r ctx mu
              (foldl (Group.sched_step env_step (group (Run_assemble r ctx mu))) st
                 (finish_runFn (S (watcher_index r) + k0)))) by by apply Run_inv_steps.
    apply elem_of_cons in Hk as [->|Hk].
    + assert (is_Some (runners r !! k0)) as [fn Hfn].
      { apply lookup_lt_is_Some, Hlt. by left. }
      exists None. apply GroupExtra.returned_stable.
      apply (finish_runFn_returns _ _ _ fn ctx).
      * by apply Run_runFn_lookup.
      * by apply (ri_runFn _ _ _ _ Hinv).
    + apply IH; [done| |done]. intros k' Hk'. apply Hlt. by right.
Qed.

(** X9. [Run] can always come to an end once the context is cancelled: on
    a fresh runner, after any schedule that leaves the context
    cancelled, letting the watcher run, the listener notice the closed
    server, every background function return and the group collect them
    makes the group return; so [Run] is not left blocked: it returns to
    its caller or exits. *)
Theorem Run_returns_after_cancel (r : runner) (ctx : context) (mu : Handler)
    (sched : list item) :
  Group.actors (group r) = [] →
  ctx ∈ w_done (Group.g_world (Run_group r ctx mu sched world0)) →
  (∃ o, Group.returned (Run_group r ctx mu (sched ++ drain r) world0) = Some o) ∧
  (∀ st, Run r ctx mu (sched ++ drain r) world0 ≠ Blocked st).
Proof.
  intros Hfresh Hdone.
  assert (Hret : ∃ o, Group.returned (Run_group r ctx mu (sched ++ drain r) world0) = Some o).
  { pose proof (Run_inv_sched r ctx mu sched Hfresh) as Hinv0.
    pose proof (Run_inv2_sched r ctx mu sched Hfresh) as Hinv20.
    pose proof (Run_group_inv r ctx mu sched) as Hg0.
    unfold Run_group in *. rewrite GroupExtra.run_sched_app.
    set (g := group (Run_assemble r ctx mu)) in *.
    set (st0 := Group.run_sched env_step g sched _) in *.
    unfold drain. rewrite !foldl_app.
    set (st1 := foldl (Group.sched_step env_step g) st0
                  (replicate (length (cleanup r) + 3) (Group.SActor (watcher_index r) Quiet))).
    set (st2 := foldl (Group.sched_step env_step g) st1 [Group.SActor 0 Quiet]).
    set (st3 := foldl (Group.sched_step env_step g) st2
                  (flat_map (fun k => finish_runFn (S (watcher_index r) + k))
                     (seq 0 (length (runners r))))).
    assert (Hw1 : Group.g_status st1 !! watcher_index r = Some (inr None)).
    { apply (watcher_steps_done r ctx mu); [done..|]. by apply (watcher_fuel_le r ctx mu). }
    assert (Hinv1 : Run_inv r ctx mu st1) by by apply Run_inv_steps.
    assert (Hinv21 : Run_inv2 r ctx mu st1) by by apply Run_inv2_steps.
    assert (Hinv2 : Run_inv r ctx mu st2) by by apply Run_inv_steps.
    assert (Hinv3 : Run_inv r ctx mu st3) by by apply Run_inv_steps.
    assert (Hg3 : Group.inv g st3).
    { do 3 apply GroupExtra.inv_steps. done. }
    assert (Hh2 : forTesting r = false → ∃ o, Group.g_status st2 !! 0 = Some (inr o)).
    { intros Hft. apply (http_notices_close r ctx mu st1); [done..|].
      apply (r2_shut _ _ _ _ Hinv21 Hft). by rewrite Hw1. }
    assert (Hall : ∀ i s, Group.g_status st3 !! i = Some s → ∃ o, s = inr o).
    { intros i s Hi.
      assert (is_Some (Group.actors g !! i)) as [a Ha].
      { apply lookup_lt_is_Some. rewrite <-(Group.inv_len _ _ Hg3). by eapply lookup_lt_Some. }
      apply Run_actor_lookup in Ha as [(Hft & -> & _)|[(-> & _)|(k & fn & -> & Hk & _)]];
        [| | |done].
      - destruct (Hh2 Hft) as [o Ho]. exists o.
        pose proof (GroupExtra.returned_stable env_step g st2
                      (flat_map (fun k => finish_runFn (S (watcher_index r) + k))
                         (seq 0 (length (runners r)))) 0 o Ho) as Hst.
        fold st3 in Hst. congruence.
      - exists None.
        pose proof (GroupExtra.returned_stable env_step g st1
                      ([Group.SActor 0 Quiet] ++
                       flat_map (fun k => finish_runFn (S (watcher_index r) + k))
                         (seq 0 (length (runners r)))) (watcher_index r) None Hw1) as Hst.
        rewrite foldl_app in Hst. fold st2 st3 in Hst. congruence.
      - destruct (finish_runFns_return r ctx mu (seq 0 (length (runners r))) st2
                    Hfresh Hinv2) with (k := k) as [o Ho].
        + intros k' Hk'. apply elem_of_seq in Hk'. lia.
        + apply elem_of_seq. apply lookup_lt_Some in Hk. lia.
        + exists o.
          assert (Ho' : Group.g_status st3 !! (S (watcher_index r) + k) = Some (inr o))
            by exact Ho.
          rewrite Ho' in Hi. by injection Hi. }
    destruct (GroupExtra.all_returned_run_returns env_step g st3 Hg3) as (t & o & _ & Ho).
    - intros Hnil. pose proof (Run_actors_length r ctx mu Hfresh) as Hl.
      fold g in Hl. rewrite Hnil in Hl. simpl in Hl. lia.
    - done.
    - exists o. unfold Group.main_steps in Ho.
      pose proof (Run_actors_length r ctx mu Hfresh) as Hl. fold g in Hl.
      rewrite Hl in Ho. exact Ho. }
  split; [done|].
  destruct Hret as [o Ho]. intros st Hb. unfold Run, finish in Hb. rewrite Ho in Hb.
  by destruct o.
Qed.

Lemma Run_returns_after_cancel_witness :
  Group.actors (group ex_runner) = [] ∧
  5 ∈ w_done (Group.g_world (Run_group ex_runner 5 9 [Group.SEnv (Cancel 5)] world0)) ∧
  ∃ o, Group.returned
         (Run_group ex_runner 5 9 ([Group.SEnv (Cancel 5)] ++ drain ex_runner) world0) = Some o.
Proof.
  assert (H5 : 5 ∈ w_done (Group.g_world
                 (Run_group ex_runner 5 9 [Group.SEnv (Cancel 5)] world0)))
    by (vm_compute; left).
  split; [reflexivity|]. split; [exact H5|].
  destruct (Run_returns_after_cancel ex_runner 5 9 [Group.SEnv (Cancel 5)] eq_refl H5)
    as [H _].
  exact H.
Defined.

Lemma finish_runFns_return_async (r : runner) (ctx : context) (ks : list nat) (st : gstate) :
  Group.actors (group r) = [] →
  Async_inv r ctx st →
  (∀ k, k ∈ ks → k < length (runners r)) →
  ∀ k, k ∈ ks →
       Group.g_status
         (foldl (Group.sched_step env_step (group (Async_assemble r ctx))) st
            (flat_map finish_runFn ks))
         !! k = Some (inr None).
Proof.
  intros Hfresh. revert st. induction ks as [|k0 ks IH]; intros st Hinv Hlt k Hk.
  - by apply elem_of_nil in Hk.
  - change (flat_map finish_runFn (k0 :: ks))
      with (finish_runFn k0 ++ flat_map finish_runFn ks).
    rewrite foldl_app.
    assert (Hinv' : Async_inv r ctx
              (foldl (Group.sched_step env_step (group (Async_assemble r ctx))) st
                 (finish_runFn k0))) by by apply Async_inv_steps.
    apply elem_of_cons in Hk as [->|Hk].
    + assert (is_Some (runners r !! k0)) as [fn Hfn].
      { apply lookup_lt_is_Some, Hlt. by left. }
      apply GroupExtra.returned_stable.
      apply (finish_runFn_returns _ _ _ fn ctx).
      * rewrite Async_actors, Hfresh. simpl. by rewrite list_lookup_fmap, Hfn.
      * by apply (ai_runFn _ _ _ Hinv).
    + apply IH; [done| |done]. intros k' Hk'. apply Hlt. by right.
Qed.

(** X11. [Async] needs no cancellation to come to an end: on a fresh
    runner with at least one background function, after any schedule,
    letting every background function return and the group collect them
    makes [Async] return to its caller, with success. *)
Theorem Async_returns_when_functions_return (r : runner) (ctx : context)
    (sched : list item) :
  Group.actors (group r) = [] →
  runners r ≠ [] →
  Group.returned (Async_group r ctx (sched ++ drain_async r) world0) = Some None ∧
  Async r ctx (sched ++ drain_async r) world0 =
    Returned (Group.g_world (Async_group r ctx (sched ++ drain_async r) world0)).
Proof.
  intros Hfresh Hne.
  assert (Hret : Group.returned (Async_group r ctx (sched ++ drain_async r) world0)
                 = Some None).
  { pose proof (Async_inv_sched r ctx sched Hfresh) as Hinv0.
    pose proof (Async_group_inv r ctx sched) as Hg0.
    pose proof (Async_inv_sched r ctx (sched ++ drain_async r) Hfresh) as HinvE.
    pose proof (Async_group_inv r ctx (sched ++ drain_async r)) as HgE.
    unfold Async_group in *. rewrite GroupExtra.run_sched_app in *.
    set (g := group (Async_assemble r ctx)) in *.
    set (st0 := Group.run_sched env_step g sched _) in *.
    unfold drain_async in *. rewrite !foldl_app in *.
    set (st1 := foldl (Group.sched_step env_step g) st0
                  (flat_map finish_runFn (seq 0 (length (runners r))))) in *.
    assert (Hg1 : Group.inv g st1) by by apply GroupExtra.inv_steps.
    assert (Hall : ∀ i s, Group.g_status st1 !! i = Some s → ∃ o, s = inr o).
    { intros i s Hi. exists None.
      pose proof (lookup_lt_Some _ _ _ Hi) as Hlt.
      rewrite (Group.inv_len _ _ Hg1) in Hlt. unfold g in Hlt.
      rewrite Async_actors_length in Hlt by done.
      pose proof (finish_runFns_return_async r ctx (seq 0 (length (runners r))) st0
                    Hfresh Hinv0) as Hk.
      fold g st1 in Hk. rewrite Hk in Hi.
      - congruence.
      - intros k' Hk'. apply elem_of_seq in Hk'. lia.
      - apply elem_of_seq. lia. }
    destruct (GroupExtra.all_returned_run_returns env_step g st1 Hg1) as (t & o & Ht & Ho).
    - intros Hnil. pose proof (Async_actors_length r ctx Hfresh) as Hl.
      fold g in Hl. rewrite Hnil in Hl. destruct (runners r); [done|simpl in Hl; lia].
    - done.
    - unfold Group.main_steps in Ho.
      pose proof (Async_actors_length r ctx Hfresh) as Hl. fold g in Hl.
      rewrite Hl in Ho. rewrite Ho. f_equal.
      pose proof (trigger_status _ _ _ _ Hg1 Ht) as Hs.
      destruct (Hall t _ Hs) as [o' Ho']. injection Ho' as ->.
      by eapply (Async_status_success r ctx st1 t); [done|done| |done];
        apply Async_inv_steps. }
  split; [done|]. unfold Async, finish. by rewrite Hret.
Qed.

Lemma Async_returns_when_functions_return_witness :
  Group.actors (group ex_runner) = [] ∧ runners ex_runner ≠ [] ∧
  Group.returned (Async_group ex_runner 5 ([] ++ drain_async ex_runner) world0) = Some None.
Proof.
  assert (Hne : runners ex_runner ≠ []) by discriminate.
  split; [reflexivity|]. split; [exact Hne|].
  destruct (Async_returns_when_functions_return ex_runner 5 [] eq_refl Hne) as [H _].
  exact H.
Defined.

End RunnerExtra.
